(** * Barretenberg backend adapter (noir_js_backend_barretenberg/src/index.ts)

    A shallow embedding of the proof-buffer codec and of the lifecycle of
    [BarretenbergBackend], with the properties the specification states
    about them.

    Conventions of the embedding:
    - a JavaScript string is a list of code units; only code units below
      256 are represented ([ascii]);
    - a [Uint8Array] is a [list byte];
    - integral JavaScript numbers are [Z] (witness indices, which are
      unsigned, are [N]); the one number of the file that can be
      fractional, [len] in [hexToUint8Array], is a [Q];
    - a [bigint] is a [Z];
    - a JavaScript [Map] is an association list in insertion order;
    - code that can throw returns an [outcome];
    - calls into the native library and into [fflate] are nodes of a
      program tree ([Prog]) which a handler interprets. *)

From Stdlib.Strings Require Import Ascii String Byte.
From Stdlib Require Import ZArith NArith QArith Qround List.
From Stdlib Require Import Lia Bool DecimalString DecimalN Sorted Permutation.
Import ListNotations.

#[local] Open Scope Z_scope.

(** ** Errors and results *)

Inductive JsError : Type :=
| TypeError
| RangeError
| SyntaxError.

(** [OutOfFuel] is the outcome of a loop of the model that was not given
    enough iterations; the loops below are proved never to end that way. *)
Inductive outcome (A : Type) : Type :=
| Ok (a : A)
| Throw (e : JsError)
| OutOfFuel.

Arguments Ok {A} a.
Arguments Throw {A} e.
Arguments OutOfFuel {A}.

Definition rbind {A B : Type} (r : outcome A) (k : A -> outcome B) : outcome B :=
  match r with
  | Ok a => k a
  | Throw e => Throw e
  | OutOfFuel => OutOfFuel
  end.

Declare Scope outcome_scope.
Delimit Scope outcome_scope with res.
Notation "'let!' x ':=' r 'in' k" := (rbind r (fun x => k))
  (at level 10, x pattern, r at level 100, k at level 200) : outcome_scope.

(** [Array.prototype.map] with a callback that can throw: the first
    exception aborts the traversal. *)
Fixpoint rmap {A B : Type} (f : A -> outcome B) (l : list A) : outcome (list B) :=
  match l with
  | [] => Ok []
  | x :: l' =>
      (let! y := f x in
       let! ys := rmap f l' in
       Ok (y :: ys))%res
  end.

(** ** JavaScript strings *)

Definition jsstring : Type := list ascii.

Definition str (s : string) : jsstring := list_ascii_of_string s.

Definition code (c : ascii) : N := N_of_ascii c.

Definition ascii_eqb (a b : ascii) : bool := N.eqb (code a) (code b).

(** [String.prototype.slice(from, to)] for arguments that are not
    negative, the only ones the source passes. *)
Definition str_slice (s : jsstring) (from to : Z) : jsstring :=
  firstn (Z.to_nat (to - from)) (skipn (Z.to_nat from) s).

(** [String.prototype.padStart(n, c)] with a filler of one code unit. *)
Definition padStart (s : jsstring) (n : nat) (c : ascii) : jsstring :=
  repeat c (n - length s) ++ s.

Fixpoint starts_with (p s : jsstring) : bool :=
  match p, s with
  | [], _ => true
  | _ :: _, [] => false
  | a :: p', b :: s' => ascii_eqb a b && starts_with p' s'
  end.

(** White space of [StrWhiteSpaceChar] that fits in one byte: TAB, LF, VT,
    FF, CR, SP and NBSP. *)
Definition is_white_space (c : ascii) : bool :=
  let n := code c in
  ((9 <=? n) && (n <=? 13) || (n =? 32) || (n =? 160))%N.

Fixpoint trim_start (s : jsstring) : jsstring :=
  match s with
  | [] => []
  | c :: s' => if is_white_space c then trim_start s' else s
  end.

Definition trim (s : jsstring) : jsstring :=
  rev (trim_start (rev (trim_start s))).

(** ** Digits *)

(** The digit of value [d] below 16, as [toString(16)] prints it. *)
Definition hex_char (d : N) : ascii :=
  if (d <? 10)%N then ascii_of_N (48 + d) else ascii_of_N (87 + d).

(** The value of a digit in radix up to 36, upper or lower case. *)
Definition digit_val (c : ascii) : option N :=
  let n := code c in
  if ((48 <=? n) && (n <=? 57))%N then Some (n - 48)%N
  else if ((97 <=? n) && (n <=? 122))%N then Some (n - 87)%N
  else if ((65 <=? n) && (n <=? 90))%N then Some (n - 55)%N
  else None.

Definition radix_digit (radix : N) (c : ascii) : option N :=
  match digit_val c with
  | Some d => if (d <? radix)%N then Some d else None
  | None => None
  end.

(** The value of a string all of whose code units are digits of the
    radix, most significant first; [None] at the first other code unit. *)
Fixpoint digits_value (radix : N) (acc : N) (s : jsstring) : option N :=
  match s with
  | [] => Some acc
  | c :: s' =>
      match radix_digit radix c with
      | Some d => digits_value radix (acc * radix + d)%N s'
      | None => None
      end
  end.

(** The longest prefix of digits of the radix. *)
Fixpoint digit_prefix (radix : N) (s : jsstring) : jsstring :=
  match s with
  | [] => []
  | c :: s' =>
      match radix_digit radix c with
      | Some _ => c :: digit_prefix radix s'
      | None => []
      end
  end.

(** The hexadecimal digits of [n], most significant first, none for zero.
    Each step divides by 16, so one step more than the binary logarithm
    of [n] is enough. *)
Fixpoint hex_digits_from (steps : nat) (n : N) (acc : jsstring) : jsstring :=
  match steps with
  | O => acc
  | S steps' =>
      if (n =? 0)%N then acc
      else hex_digits_from steps' (n / 16)%N (hex_char (n mod 16)%N :: acc)
  end.

Definition hex_digits (n : N) : jsstring :=
  hex_digits_from (S (N.to_nat (N.log2 n))) n [].

(** [Number.prototype.toString(16)] on a non-negative integer. *)
Definition N_toString16 (n : N) : jsstring :=
  if (n =? 0)%N then str "0" else hex_digits n.

(** [BigInt.prototype.toString(16)]. *)
Definition BigInt_toString16 (z : Z) : jsstring :=
  if z <? 0 then str "-" ++ N_toString16 (Z.abs_N z)
  else N_toString16 (Z.to_N z).

(** [Number.prototype.toString()] on a witness index: its decimal digits
    (an index is far below 1e21, where the exponent notation starts). *)
Definition N_toString (n : N) : jsstring :=
  str (NilZero.string_of_uint (N.to_uint n)).

(** ** [BigInt(string)] and [parseInt(string, 16)] *)

Definition nonempty_digits (radix : N) (s : jsstring) : option N :=
  match s with
  | [] => None
  | _ :: _ => digits_value radix 0 s
  end.

(** [StringToBigInt]: white space is trimmed, the empty string is 0, a
    prefix 0x, 0o or 0b selects the radix and excludes a sign, a decimal
    literal may carry one sign; anything else is a [SyntaxError]. *)
Definition StringToBigInt (s : jsstring) : option Z :=
  match trim s with
  | [] => Some 0
  | (c0 :: rest0) as text =>
      if starts_with (str "0x") text || starts_with (str "0X") text then
        option_map Z.of_N (nonempty_digits 16 (skipn 2 text))
      else if starts_with (str "0o") text || starts_with (str "0O") text then
        option_map Z.of_N (nonempty_digits 8 (skipn 2 text))
      else if starts_with (str "0b") text || starts_with (str "0B") text then
        option_map Z.of_N (nonempty_digits 2 (skipn 2 text))
      else if ascii_eqb c0 "-" then
        option_map (fun n => - Z.of_N n) (nonempty_digits 10 rest0)
      else if ascii_eqb c0 "+" then
        option_map Z.of_N (nonempty_digits 10 rest0)
      else option_map Z.of_N (nonempty_digits 10 text)
  end.

Definition BigInt (s : jsstring) : outcome Z :=
  match StringToBigInt s with
  | Some z => Ok z
  | None => Throw SyntaxError
  end.

(** [parseInt(s, 16)]; [None] is NaN. Leading white space is skipped, one
    sign and one 0x prefix are accepted, and the digits stop at the first
    code unit that is not a hexadecimal digit. *)
Definition parseInt16 (s : jsstring) : option Z :=
  let s1 := trim_start s in
  let negative := starts_with (str "-") s1 in
  let s2 := if negative || starts_with (str "+") s1 then skipn 1 s1 else s1 in
  let s3 := if starts_with (str "0x") s2 || starts_with (str "0X") s2
            then skipn 2 s2 else s2 in
  match nonempty_digits 16 (digit_prefix 16 s3) with
  | Some n => Some (if negative then - Z.of_N n else Z.of_N n)
  | None => None
  end.

(** ** Typed arrays *)

Definition Uint8Array : Type := list byte.

(** [ToUint8]: NaN becomes 0, an integer is reduced modulo 256. *)
Definition ToUint8 (v : option Z) : byte :=
  match v with
  | None => x00
  | Some z =>
      match Byte.of_N (Z.to_N (z mod 256)) with
      | Some b => b
      | None => x00
      end
  end.

(** [new Uint8Array(len)] for a length that is not negative: [ToIndex]
    drops the fraction. *)
Definition new_Uint8Array (len : Q) : Uint8Array :=
  repeat x00 (Z.to_nat (Qfloor len)).

(** [a[i] = v] on a typed array: a write outside the array is ignored. *)
Fixpoint u8_store (a : Uint8Array) (i : nat) (v : byte) : Uint8Array :=
  match a, i with
  | [], _ => []
  | _ :: a', O => v :: a'
  | b :: a', S i' => b :: u8_store a' i' v
  end.

Definition u8_assign (a : Uint8Array) (i : Z) (v : option Z) : Uint8Array :=
  if i <? 0 then a else u8_store a (Z.to_nat i) (ToUint8 v).

(** A relative index of [slice], clamped into the array. *)
Definition relative_index (len k : Z) : Z :=
  if k <? 0 then Z.max (len + k) 0 else Z.min k len.

(** [TypedArray.prototype.slice(from, to)]. *)
Definition u8_slice (a : Uint8Array) (from to : Z) : Uint8Array :=
  let len := Z.of_nat (length a) in
  let k := relative_index len from in
  let final := relative_index len to in
  firstn (Z.to_nat (final - k)) (skipn (Z.to_nat k) a).

(** [slice(from)]: up to the end of the array. *)
Definition u8_slice_from (a : Uint8Array) (from : Z) : Uint8Array :=
  u8_slice a from (Z.of_nat (length a)).

(** [TypedArray.prototype.set(src, offset)]: a [RangeError] when the
    source does not fit. *)
Definition u8_set (a src : Uint8Array) (offset : nat) : outcome Uint8Array :=
  if (offset + length src <=? length a)%nat
  then Ok (firstn offset a ++ src ++ skipn (offset + length src) a)
  else Throw RangeError.

(** ** The codec helpers *)

(** [flattenUint8Arrays] *)
Fixpoint flatten_loop (arrays : list Uint8Array) (result : Uint8Array)
  (offset : nat) : outcome Uint8Array :=
  match arrays with
  | [] => Ok result
  | arr :: rest =>
      (let! result' := u8_set result arr offset in
       flatten_loop rest result' (offset + length arr))%res
  end.

Definition flattenUint8Arrays (arrays : list Uint8Array) : outcome Uint8Array :=
  let totalLength := fold_left (fun acc val => (acc + length val)%nat) arrays 0%nat in
  let result := repeat x00 totalLength in
  flatten_loop arrays result 0.

(** [uint8ArrayToHex] *)
Definition byte_hex (i : byte) : jsstring :=
  let h := N_toString16 (Byte.to_N i) in
  if Nat.eqb (Nat.modulo (length h) 2) 0 then h else str "0" ++ h.

Definition uint8ArrayToHex (buffer : Uint8Array) : jsstring :=
  str "0x" ++ concat (map byte_hex buffer).

(** [hexToUint8Array] *)
Definition num_lt (i : Z) (len : Q) : bool := negb (Qle_bool len (inject_Z i)).

Fixpoint hex_loop (fuel : nat) (sanitised_hex : jsstring) (len : Q)
  (u8 : Uint8Array) (i j : Z) : outcome Uint8Array :=
  match fuel with
  | O => OutOfFuel
  | S fuel' =>
      if num_lt i len then
        let u8' := u8_assign u8 i (parseInt16 (str_slice sanitised_hex j (j + 2))) in
        hex_loop fuel' sanitised_hex len u8' (i + 1) (j + 2)
      else Ok u8
  end.

Definition sanitise (z : Z) : jsstring :=
  padStart (BigInt_toString16 z) 64 "0".

Definition hexToUint8Array (hex : jsstring) : outcome Uint8Array :=
  (let! z := BigInt hex in
   let sanitised_hex := sanitise z in
   let len := (inject_Z (Z.of_nat (length sanitised_hex)) / 2)%Q in
   let u8 := new_Uint8Array len in
   hex_loop (S (length sanitised_hex)) sanitised_hex len u8 0 0)%res.

(** ** The circuit ABI and proof data *)

Record WitnessRange : Type := { start : N; end_ : N }.

Record AbiParameter : Type := { name : jsstring; visibility : jsstring }.

(** [param_witnesses] is an object keyed by parameter name. *)
Record Abi : Type := {
  parameters : list AbiParameter;
  param_witnesses : list (jsstring * list WitnessRange);
  return_witnesses : list N
}.

(** A [Map] from witness index to field value, in insertion order. *)
Definition WitnessMap : Type := list (N * jsstring).

Record ProofData : Type := { proof : Uint8Array; publicInputs : WitnessMap }.

Fixpoint str_eqb (a b : jsstring) : bool :=
  match a, b with
  | [], [] => true
  | x :: a', y :: b' => ascii_eqb x y && str_eqb a' b'
  | _, _ => false
  end.

(** Strictly less, code unit by code unit: the order [sort] uses when it
    is given no comparator. *)
Fixpoint str_ltb (a b : jsstring) : bool :=
  match a, b with
  | _, [] => false
  | [], _ :: _ => true
  | x :: a', y :: b' =>
      if (code x <? code y)%N then true
      else if (code y <? code x)%N then false
      else str_ltb a' b'
  end.

(** Property lookup [obj[key]]; [None] is [undefined]. *)
Fixpoint object_get {A : Type} (obj : list (jsstring * A)) (key : jsstring) : option A :=
  match obj with
  | [] => None
  | (k, v) :: obj' => if str_eqb k key then Some v else object_get obj' key
  end.

Fixpoint Map_get (m : WitnessMap) (key : N) : option jsstring :=
  match m with
  | [] => None
  | (k, v) :: m' => if (k =? key)%N then Some v else Map_get m' key
  end.

(** [Map.prototype.set]: a key already present keeps its place. *)
Fixpoint Map_set (m : WitnessMap) (key : N) (value : jsstring) : WitnessMap :=
  match m with
  | [] => [(key, value)]
  | (k, v) :: m' =>
      if (k =? key)%N then (k, value) :: m' else (k, v) :: Map_set m' key value
  end.

Definition Map_keys (m : WitnessMap) : list N := map fst m.

(** [new Set(array)], spread back into an array: the first occurrence of
    each element, in order. *)
Definition Set_add (s : list N) (x : N) : list N :=
  if existsb (N.eqb x) s then s else s ++ [x].

Definition new_Set (l : list N) : list N := fold_left Set_add l [].

(** [Array.prototype.sort()] without a comparator on an array of numbers:
    the elements are compared as strings. The sort is stable. *)
Definition sort_before (x y : N) : bool := str_ltb (N_toString x) (N_toString y).

Fixpoint sort_insert (x : N) (l : list N) : list N :=
  match l with
  | [] => [x]
  | y :: l' => if sort_before y x then y :: sort_insert x l' else x :: l
  end.

Fixpoint sort (l : list N) : list N :=
  match l with
  | [] => []
  | x :: l' => sort_insert x (sort l')
  end.

(** [Array.from({ length: end - start }, (_, i) => start + i)] *)
Definition range_witnesses (witness_range : WitnessRange) : list N :=
  map (fun i => (start witness_range + N.of_nat i)%N)
      (seq 0 (N.to_nat (end_ witness_range - start witness_range))).

(** ** [generateProof], after the native call *)

Definition numBytesInProofWithoutPublicInputs : Z := 2144.

Definition public_parameter_witnesses_of (abi : Abi) : outcome (list N) :=
  let public_parameters :=
    filter (fun param => str_eqb (visibility param) (str "public")) (parameters abi) in
  (let! per_param :=
     rmap (fun param =>
             match object_get (param_witnesses abi) (name param) with
             | Some ranges => Ok (flat_map range_witnesses ranges)
             | None => Throw TypeError
             end) public_parameters in
   Ok (concat per_param))%res.

Definition public_input_witnesses_of (abi : Abi) : outcome (list N) :=
  let return_value_witnesses := return_witnesses abi in
  (let! public_parameter_witnesses := public_parameter_witnesses_of abi in
   Ok (sort (new_Set (public_parameter_witnesses ++ return_value_witnesses))))%res.

(** The loop that cuts the public-input region into chunks. *)
Fixpoint chunk_loop (fuel : nat) (publicInputsConcatenated : Uint8Array)
  (publicInputSize i : Z) (flattenedPublicInputs : list Uint8Array)
  : outcome (list Uint8Array) :=
  match fuel with
  | O => OutOfFuel
  | S fuel' =>
      if i <? Z.of_nat (length publicInputsConcatenated) then
        let publicInput := u8_slice publicInputsConcatenated i (i + publicInputSize) in
        chunk_loop fuel' publicInputsConcatenated publicInputSize
          (i + publicInputSize) (flattenedPublicInputs ++ [publicInput])
      else Ok flattenedPublicInputs
  end.

Definition flattened_public_inputs (publicInputsConcatenated : Uint8Array)
  : outcome (list Uint8Array) :=
  chunk_loop (S (length publicInputsConcatenated)) publicInputsConcatenated 32 0 [].

(** The [forEach] that fills the witness map; [uint8ArrayToHex(undefined)]
    is a [TypeError]. *)
Fixpoint fill_public_inputs (public_input_witnesses : list N) (index : nat)
  (flattenedPublicInputs : list Uint8Array) (publicInputs : WitnessMap)
  : outcome WitnessMap :=
  match public_input_witnesses with
  | [] => Ok publicInputs
  | witness_index :: rest =>
      match nth_error flattenedPublicInputs index with
      | None => Throw TypeError
      | Some buffer =>
          let witness_value := uint8ArrayToHex buffer in
          fill_public_inputs rest (S index) flattenedPublicInputs
            (Map_set publicInputs witness_index witness_value)
      end
  end.

(** Lines 92 to 125 of [generateProof]: from the buffer the native call
    returned to the proof data. *)
Definition splitProof (abi : Abi) (proofWithPublicInputs : Uint8Array)
  : outcome ProofData :=
  let splitIndex :=
    Z.of_nat (length proofWithPublicInputs) - numBytesInProofWithoutPublicInputs in
  let publicInputsConcatenated := u8_slice proofWithPublicInputs 0 splitIndex in
  (let! flattenedPublicInputs := flattened_public_inputs publicInputsConcatenated in
   let! public_input_witnesses := public_input_witnesses_of abi in
   let! publicInputs :=
     fill_public_inputs public_input_witnesses 0 flattenedPublicInputs [] in
   let proof := u8_slice_from proofWithPublicInputs splitIndex in
   Ok {| proof := proof; publicInputs := publicInputs |})%res.

(** ** [reconstructProofWithPublicInputs] *)

(** [hexToUint8Array(map.get(index) as string)]; [BigInt(undefined)] is a
    [TypeError]. *)
Definition hexToUint8Array_of (value : option jsstring) : outcome Uint8Array :=
  match value with
  | Some hex => hexToUint8Array hex
  | None => Throw TypeError
  end.

Definition reconstructProofWithPublicInputs (proofData : ProofData)
  : outcome Uint8Array :=
  let publicInputIndices := sort (Map_keys (publicInputs proofData)) in
  (let! flattenedPublicInputs :=
     rmap (fun index => hexToUint8Array_of (Map_get (publicInputs proofData) index))
          publicInputIndices in
   let! publicInputsConcatenated := flattenUint8Arrays flattenedPublicInputs in
   Ok (publicInputsConcatenated ++ proof proofData))%res.

(** ** The backend class *)

Record CompiledCircuit : Type := { bytecode : jsstring; abi : Abi }.

Record BackendOptions : Type := { threads : Z }.

(** What [Crs.new] resolves to: the points it loaded. *)
Record Crs : Type := { numPoints : Z; getG1Data : Uint8Array; getG2Data : Uint8Array }.

(** [new RawBuffer(data)] wraps a byte array. *)
Definition RawBuffer (data : Uint8Array) : Uint8Array := data.

Inductive CallName : Type :=
| import_bb_js
| Barretenberg_new
| acirGetCircuitSizes
| Crs_new
| commonInitSlabAllocator
| srsInitSrs
| acirNewAcirComposer
| acirInitProvingKey
| acirCreateProof
| acirSerializeProofIntoFields
| acirInitVerificationKey
| acirSerializeVerificationKeyIntoFields
| acirVerifyProof
| api_destroy
| gunzip.

Definition CallName_eq_dec (a b : CallName) : {a = b} + {a <> b}.
Proof. decide equality. Defined.

Section Backend.

(** Handles and values of the native library are opaque. A handle is an
    object, so it is truthy: [!this.api] holds exactly when the field is
    still [undefined]. *)
Variables Api Composer Fr : Type.
Variable Fr_toString : Fr -> jsstring.

(** [acirToUint8Array] of [serialize.ts] (base64 and gzip decoding). *)
Variable acirToUint8Array : jsstring -> outcome Uint8Array.

Record BarretenbergBackend : Type := {
  api : option Api;
  acirComposer : option Composer;
  acirUncompressedBytecode : Uint8Array;
  acirCircuit : CompiledCircuit;
  options : BackendOptions
}.

Definition set_api (this : BarretenbergBackend) (v : Api) : BarretenbergBackend :=
  {| api := Some v;
     acirComposer := acirComposer this;
     acirUncompressedBytecode := acirUncompressedBytecode this;
     acirCircuit := acirCircuit this;
     options := options this |}.

Definition set_acirComposer (this : BarretenbergBackend) (v : Composer)
  : BarretenbergBackend :=
  {| api := api this;
     acirComposer := Some v;
     acirUncompressedBytecode := acirUncompressedBytecode this;
     acirCircuit := acirCircuit this;
     options := options this |}.

(** The calls that leave this file, with the type of what they resolve
    to. *)
Inductive NativeCall : Type -> Type :=
| ImportBbJs : NativeCall unit
| BarretenbergNew (threads : Z) : NativeCall Api
| AcirGetCircuitSizes (a : Api) (bytecode : Uint8Array) : NativeCall (Z * Z * Z)
| CrsNew (n : Z) : NativeCall Crs
| CommonInitSlabAllocator (a : Api) (subgroupSize : Z) : NativeCall unit
| SrsInitSrs (a : Api) (g1 : Uint8Array) (n : Z) (g2 : Uint8Array) : NativeCall unit
| AcirNewAcirComposer (a : Api) (subgroupSize : Z) : NativeCall Composer
| AcirInitProvingKey (a : Api) (c : option Composer) (bytecode : Uint8Array)
  : NativeCall unit
| AcirCreateProof (a : Api) (c : option Composer) (bytecode witness : Uint8Array)
    (makeEasyToVerifyInCircuit : bool) : NativeCall Uint8Array
| AcirSerializeProofIntoFields (a : Api) (c : option Composer) (proof : Uint8Array)
    (numOfPublicInputs : Z) : NativeCall (list Fr)
| AcirInitVerificationKey (a : Api) (c : option Composer) : NativeCall unit
| AcirSerializeVerificationKeyIntoFields (a : Api) (c : option Composer)
  : NativeCall (list Fr * Fr)
| AcirVerifyProof (a : Api) (c : option Composer) (proof : Uint8Array)
    (makeEasyToVerifyInCircuit : bool) : NativeCall bool
| ApiDestroy (a : Api) : NativeCall unit
| Gunzip (data : Uint8Array) : NativeCall Uint8Array.

Definition call_name {R : Type} (c : NativeCall R) : CallName :=
  match c with
  | ImportBbJs => import_bb_js
  | BarretenbergNew _ => Barretenberg_new
  | AcirGetCircuitSizes _ _ => acirGetCircuitSizes
  | CrsNew _ => Crs_new
  | CommonInitSlabAllocator _ _ => commonInitSlabAllocator
  | SrsInitSrs _ _ _ _ => srsInitSrs
  | AcirNewAcirComposer _ _ => acirNewAcirComposer
  | AcirInitProvingKey _ _ _ => acirInitProvingKey
  | AcirCreateProof _ _ _ _ _ => acirCreateProof
  | AcirSerializeProofIntoFields _ _ _ _ => acirSerializeProofIntoFields
  | AcirInitVerificationKey _ _ => acirInitVerificationKey
  | AcirSerializeVerificationKeyIntoFields _ _ => acirSerializeVerificationKeyIntoFields
  | AcirVerifyProof _ _ _ _ => acirVerifyProof
  | ApiDestroy _ => api_destroy
  | Gunzip _ => gunzip
  end.

(** A method body: it ends with an outcome, calls out and waits for the
    answer, reads [this], or assigns to fields of [this]. *)
Inductive Prog (A : Type) : Type :=
| Done (o : outcome A)
| Call {R : Type} (c : NativeCall R) (k : R -> Prog A)
| Get (k : BarretenbergBackend -> Prog A)
| Put (this : BarretenbergBackend) (k : Prog A).

Arguments Done {A} o.
Arguments Call {A R} c k.
Arguments Get {A} k.
Arguments Put {A} this k.

Definition Ret {A : Type} (a : A) : Prog A := Done (Ok a).
Definition Raise {A : Type} (e : JsError) : Prog A := Done (Throw e).

Fixpoint bind {A B : Type} (p : Prog A) (f : A -> Prog B) : Prog B :=
  match p with
  | Done (Ok a) => f a
  | Done (Throw e) => Done (Throw e)
  | Done OutOfFuel => Done OutOfFuel
  | Call c k => Call c (fun r => bind (k r) f)
  | Get k => Get (fun this => bind (k this) f)
  | Put this k => Put this (bind k f)
  end.

Definition await {R : Type} (c : NativeCall R) : Prog R := Call c Ret.

Notation "x <- p ;; q" := (bind p (fun x => q))
  (at level 61, p at next level, right associativity).
Notation "' pat <- p ;; q" := (bind p (fun x => match x with pat => q end))
  (at level 61, pat pattern, p at next level, right associativity).
Notation "p ;; q" := (bind p (fun _ => q))
  (at level 61, right associativity).

(** [this.api.m(...)]: reading a property of [undefined] is a
    [TypeError]. *)
Definition this_api : Prog Api :=
  Get (fun this =>
         match api this with
         | Some a => Ret a
         | None => Raise TypeError
         end).

Definition this_field {A : Type} (f : BarretenbergBackend -> A) : Prog A :=
  Get (fun this => Ret (f this)).

Definition assign (f : BarretenbergBackend -> BarretenbergBackend) : Prog unit :=
  Get (fun this => Put (f this) (Ret tt)).

(** The constructor; [options] defaults to one thread. *)
Definition new_BarretenbergBackend (acirCircuit : CompiledCircuit)
  (options : option BackendOptions) : outcome BarretenbergBackend :=
  let acirBytecodeBase64 := bytecode acirCircuit in
  (let! uncompressed := acirToUint8Array acirBytecodeBase64 in
   Ok {| api := None;
         acirComposer := None;
         acirUncompressedBytecode := uncompressed;
         acirCircuit := acirCircuit;
         options := match options with
                    | Some o => o
                    | None => {| threads := 1 |}
                    end |})%res.

Definition instantiate : Prog unit :=
  Get (fun this =>
    match api this with
    | Some _ => Ret tt
    | None =>
        await ImportBbJs ;;
        threads <- this_field (fun this => threads (options this)) ;;
        api <- await (BarretenbergNew threads) ;;
        bytecode <- this_field acirUncompressedBytecode ;;
        ' (_exact, _total, subgroupSize) <- await (AcirGetCircuitSizes api bytecode) ;;
        crs <- await (CrsNew (subgroupSize + 1)) ;;
        await (CommonInitSlabAllocator api subgroupSize) ;;
        await (SrsInitSrs api (RawBuffer (getG1Data crs)) (numPoints crs)
                 (RawBuffer (getG2Data crs))) ;;
        composer <- await (AcirNewAcirComposer api subgroupSize) ;;
        assign (fun this => set_acirComposer this composer) ;;
        c <- this_field acirComposer ;;
        bytecode <- this_field acirUncompressedBytecode ;;
        await (AcirInitProvingKey api c bytecode) ;;
        assign (fun this => set_api this api)
    end).

Definition lift {A : Type} (o : outcome A) : Prog A := Done o.

Definition generateProof (compressedWitness : Uint8Array)
  (makeEasyToVerifyInCircuit : bool) : Prog ProofData :=
  instantiate ;;
  a <- this_api ;;
  c <- this_field acirComposer ;;
  bytecode <- this_field acirUncompressedBytecode ;;
  witness <- await (Gunzip compressedWitness) ;;
  proofWithPublicInputs <-
    await (AcirCreateProof a c bytecode witness makeEasyToVerifyInCircuit) ;;
  circuit <- this_field acirCircuit ;;
  lift (splitProof (abi circuit) proofWithPublicInputs).

Definition generateFinalProof (decompressedWitness : Uint8Array) : Prog ProofData :=
  let makeEasyToVerifyInCircuit := false in
  generateProof decompressedWitness makeEasyToVerifyInCircuit.

Definition generateIntermediateProof (witness : Uint8Array) : Prog ProofData :=
  let makeEasyToVerifyInCircuit := true in
  generateProof witness makeEasyToVerifyInCircuit.

Record ProofArtifacts : Type := {
  proofAsFields : list jsstring;
  vkAsFields : list jsstring;
  vkHash : jsstring
}.

Definition generateIntermediateProofArtifacts (proofData : ProofData)
  (numOfPublicInputs_arg : option Z) : Prog ProofArtifacts :=
  let numOfPublicInputs :=
    match numOfPublicInputs_arg with
    | Some n => n
    | None => 0
    end in
  instantiate ;;
  proof <- lift (reconstructProofWithPublicInputs proofData) ;;
  a <- this_api ;;
  c <- this_field acirComposer ;;
  proofAsFields <- await (AcirSerializeProofIntoFields a c proof numOfPublicInputs) ;;
  a <- this_api ;;
  c <- this_field acirComposer ;;
  await (AcirInitVerificationKey a c) ;;
  a <- this_api ;;
  c <- this_field acirComposer ;;
  vk <- await (AcirSerializeVerificationKeyIntoFields a c) ;;
  Ret {| proofAsFields := map Fr_toString proofAsFields;
         vkAsFields := map Fr_toString (fst vk);
         vkHash := Fr_toString (snd vk) |}.

Definition verifyProof (proof : Uint8Array) (makeEasyToVerifyInCircuit : bool)
  : Prog bool :=
  instantiate ;;
  a <- this_api ;;
  c <- this_field acirComposer ;;
  await (AcirInitVerificationKey a c) ;;
  a <- this_api ;;
  c <- this_field acirComposer ;;
  await (AcirVerifyProof a c proof makeEasyToVerifyInCircuit).

Definition verifyFinalProof (proofData : ProofData) : Prog bool :=
  proof <- lift (reconstructProofWithPublicInputs proofData) ;;
  let makeEasyToVerifyInCircuit := false in
  verified <- verifyProof proof makeEasyToVerifyInCircuit ;;
  Ret verified.

Definition verifyIntermediateProof (proofData : ProofData) : Prog bool :=
  proof <- lift (reconstructProofWithPublicInputs proofData) ;;
  let makeEasyToVerifyInCircuit := true in
  verifyProof proof makeEasyToVerifyInCircuit.

Definition destroy : Prog unit :=
  Get (fun this =>
    match api this with
    | None => Ret tt
    | Some a => await (ApiDestroy a)
    end).

(** *** Running a method

    The native side is a handler over a state of its own: a call
    resolves to a value or rejects, and may change that state either
    way. A rejection ends the method, as the source catches nothing. *)

Variable World : Type.

Definition Handler : Type :=
  forall R : Type, NativeCall R -> World -> World * option R.

Inductive AnyCall : Type :=
| any_call {R : Type} (c : NativeCall R).

Definition name_of (c : AnyCall) : CallName :=
  match c with any_call c' => call_name c' end.

Inductive completion (A : Type) : Type :=
| Completed (o : outcome A)
| Rejected.

Arguments Completed {A} o.
Arguments Rejected {A}.

Record Run (A : Type) : Type := {
  calls : list AnyCall;
  final : BarretenbergBackend;
  world : World;
  ending : completion A
}.

Arguments calls {A} r.
Arguments final {A} r.
Arguments world {A} r.
Arguments ending {A} r.

Definition after_call {A : Type} (c : AnyCall) (r : Run A) : Run A :=
  {| calls := c :: calls r; final := final r; world := world r; ending := ending r |}.

Fixpoint run {A : Type} (h : Handler) (p : Prog A) (this : BarretenbergBackend)
  (w : World) : Run A :=
  match p with
  | Done o => {| calls := []; final := this; world := w; ending := Completed o |}
  | Call c k =>
      match h _ c w with
      | (w', Some v) => after_call (any_call c) (run h (k v) this w')
      | (w', None) =>
          {| calls := [any_call c]; final := this; world := w'; ending := Rejected |}
      end
  | Get k => run h (k this) this w
  | Put this' k => run h k this' w
  end.

(** One method after another on the same object, the second only when
    the first completed. *)
Definition then_run {A B : Type} (h : Handler) (r : Run A) (q : Prog B) : Run B :=
  match ending r with
  | Completed (Ok _) =>
      let r' := run h q (final r) (world r) in
      {| calls := calls r ++ calls r'; final := final r';
         world := world r'; ending := ending r' |}
  | Completed (Throw e) =>
      {| calls := calls r; final := final r; world := world r;
         ending := Completed (Throw e) |}
  | Completed OutOfFuel =>
      {| calls := calls r; final := final r; world := world r;
         ending := Completed OutOfFuel |}
  | Rejected =>
      {| calls := calls r; final := final r; world := world r; ending := Rejected |}
  end.

(** *** A caller

    The public methods, and a caller that invokes them one after
    another on the same object, going on after a method that threw. *)

Inductive Operation : Type :=
| op_instantiate
| op_generateFinalProof (decompressedWitness : Uint8Array)
| op_generateIntermediateProof (witness : Uint8Array)
| op_generateProof (compressedWitness : Uint8Array) (makeEasyToVerifyInCircuit : bool)
| op_generateIntermediateProofArtifacts (proofData : ProofData)
    (numOfPublicInputs : option Z)
| op_verifyFinalProof (proofData : ProofData)
| op_verifyIntermediateProof (proofData : ProofData)
| op_verifyProof (proof : Uint8Array) (makeEasyToVerifyInCircuit : bool)
| op_destroy.

Definition discard {A : Type} (p : Prog A) : Prog unit := p ;; Ret tt.

Definition perform (op : Operation) : Prog unit :=
  match op with
  | op_instantiate => instantiate
  | op_generateFinalProof w => discard (generateFinalProof w)
  | op_generateIntermediateProof w => discard (generateIntermediateProof w)
  | op_generateProof w flag => discard (generateProof w flag)
  | op_generateIntermediateProofArtifacts pd n =>
      discard (generateIntermediateProofArtifacts pd n)
  | op_verifyFinalProof pd => discard (verifyFinalProof pd)
  | op_verifyIntermediateProof pd => discard (verifyIntermediateProof pd)
  | op_verifyProof p flag => discard (verifyProof p flag)
  | op_destroy => destroy
  end.

Fixpoint run_all (h : Handler) (ops : list Operation) (this : BarretenbergBackend)
  (w : World) : Run unit :=
  match ops with
  | [] => {| calls := []; final := this; world := w; ending := Completed (Ok tt) |}
  | op :: rest =>
      let r := run h (perform op) this w in
      let r' := run_all h rest (final r) (world r) in
      {| calls := calls r ++ calls r'; final := final r';
         world := world r'; ending := ending r' |}
  end.

End Backend.

Arguments api {Api Composer} b.
Arguments acirComposer {Api Composer} b.
Arguments acirUncompressedBytecode {Api Composer} b.
Arguments acirCircuit {Api Composer} b.
Arguments options {Api Composer} b.
Arguments ImportBbJs {Api Composer Fr}.
Arguments BarretenbergNew {Api Composer Fr} threads.
Arguments AcirGetCircuitSizes {Api Composer Fr} a bytecode.
Arguments CrsNew {Api Composer Fr} n.
Arguments CommonInitSlabAllocator {Api Composer Fr} a subgroupSize.
Arguments SrsInitSrs {Api Composer Fr} a g1 n g2.
Arguments AcirNewAcirComposer {Api Composer Fr} a subgroupSize.
Arguments AcirInitProvingKey {Api Composer Fr} a c bytecode.
Arguments AcirCreateProof {Api Composer Fr} a c bytecode witness makeEasyToVerifyInCircuit.
Arguments AcirSerializeProofIntoFields {Api Composer Fr} a c proof numOfPublicInputs.
Arguments AcirInitVerificationKey {Api Composer Fr} a c.
Arguments AcirSerializeVerificationKeyIntoFields {Api Composer Fr} a c.
Arguments AcirVerifyProof {Api Composer Fr} a c proof makeEasyToVerifyInCircuit.
Arguments ApiDestroy {Api Composer Fr} a.
Arguments Gunzip {Api Composer Fr} data.
Arguments any_call {Api Composer Fr R} c.
Arguments name_of {Api Composer Fr} c.
Arguments Completed {A} o.
Arguments Rejected {A}.
Arguments Build_Run {Api Composer Fr World A} calls final world ending.
Arguments calls {Api Composer Fr World A} r.
Arguments final {Api Composer Fr World A} r.
Arguments world {Api Composer Fr World A} r.
Arguments ending {Api Composer Fr World A} r.
Arguments instantiate {Api Composer Fr}.
Arguments destroy {Api Composer Fr}.
Arguments generateProof {Api Composer Fr} compressedWitness makeEasyToVerifyInCircuit.
Arguments run {Api Composer Fr World A} h p this w.
Arguments then_run {Api Composer Fr World A B} h r q.
Arguments run_all {Api Composer Fr} Fr_toString {World} h ops this w.
Arguments perform {Api Composer Fr} Fr_toString op.

(** ** Vocabulary of the statements *)

(** The number a list of hexadecimal digit values denotes, most
    significant first. *)
Definition digits_number (ds : list N) : N :=
  fold_left (fun acc d => (acc * 16 + d)%N) ds 0%N.

(** The number a byte array denotes, big-endian. *)
Definition big_endian (bytes : Uint8Array) : N :=
  fold_left (fun acc b => (acc * 256 + Byte.to_N b)%N) bytes 0%N.

(** A list of digit values without its leading zeros. *)
Fixpoint strip_zeros (ds : list N) : list N :=
  match ds with
  | 0%N :: ds' => strip_zeros ds'
  | _ => ds
  end.

(** The two hexadecimal digits of a byte. *)
Definition nibbles (b : byte) : list N :=
  [(Byte.to_N b / 16)%N; (Byte.to_N b mod 16)%N].

(** The bytes [hexToUint8Array] reads from a string, two code units at a
    time; a last code unit without a partner is not read. *)
Fixpoint pair_bytes (s : jsstring) : Uint8Array :=
  match s with
  | a :: b :: rest => ToUint8 (parseInt16 [a; b]) :: pair_bytes rest
  | _ => []
  end.

(** The [k]-th chunk of 32 bytes of a buffer, and the number of chunks
    that cover it, the last of which may be shorter. *)
Definition chunk_at (buffer : Uint8Array) (k : nat) : Uint8Array :=
  firstn 32 (skipn (32 * k) buffer).

Definition chunk_count (buffer : Uint8Array) : nat :=
  Nat.div (length buffer + 31) 32.

Definition chunks (buffer : Uint8Array) : list Uint8Array :=
  map (chunk_at buffer) (seq 0 (chunk_count buffer)).

(** [x] does not come after [y] in the order of [sort]. *)
Definition not_after (x y : N) : Prop := sort_before y x = false.

(** ** Sample inputs *)

Definition sample_field : Uint8Array :=
  [x00; x01; x02; x03; x04; x05; x06; x07; x08; x09; x0a; x0b; x0c; x0d; x0e; x0f;
   xf0; xe1; xd2; xc3; xb4; xa5; x96; x87; x78; x69; x5a; x4b; x3c; x2d; x1e; xff].

(** 0x10 followed by 64 zeros: 66 hexadecimal digits. *)
Definition wide_hex : jsstring := str "0x10" ++ repeat "0"%char 64.

(** An ABI with one public parameter on witnesses 1 and 2, a private
    one on witness 3, and a return value on witness 4. *)
Definition sample_abi : Abi :=
  {| parameters := [ {| name := str "x"; visibility := str "public" |};
                     {| name := str "y"; visibility := str "private" |} ];
     param_witnesses := [ (str "x", [ {| start := 1; end_ := 3 |} ]);
                          (str "y", [ {| start := 3; end_ := 4 |} ]) ];
     return_witnesses := [4%N] |}.

Definition sample_proof : Uint8Array := repeat x2a 2144.

(** Three public inputs and a proof, as the native library lays them
    out. *)
Definition sample_buffer : Uint8Array :=
  sample_field ++ repeat x00 31 ++ [x07] ++ repeat xff 32 ++ sample_proof.

(** The field values [uint8ArrayToHex] writes: 0x and the 64 lower-case
    digits of 32 bytes. *)
Definition canonical_value (value : jsstring) : Prop :=
  exists c : Uint8Array, length c = 32%nat /\ value = uint8ArrayToHex c.

Definition sample_inputs : WitnessMap :=
  [ (4%N, uint8ArrayToHex (repeat xff 32));
    (1%N, uint8ArrayToHex sample_field);
    (2%N, uint8ArrayToHex (repeat x00 31 ++ [x07])) ].

(** A circuit that returns two public values, on witnesses 2 and 10. *)
Definition abi_2_10 : Abi :=
  {| parameters := []; param_witnesses := []; return_witnesses := [2; 10]%N |}.

(** A circuit with one public array parameter on witnesses 1 to 11. *)
Definition abi_1_to_11 : Abi :=
  {| parameters := [ {| name := str "xs"; visibility := str "public" |} ];
     param_witnesses := [ (str "xs", [ {| start := 1; end_ := 12 |} ]) ];
     return_witnesses := [] |}.

(** A native side that answers every call and counts them; handles are
    numbers, proofs are [sample_buffer]. *)
Definition sample_handler : Handler nat nat unit nat :=
  fun R c w =>
    (S w,
     Some (match c in NativeCall _ _ _ R return R with
           | ImportBbJs => tt
           | BarretenbergNew _ => 7%nat
           | AcirGetCircuitSizes _ _ => (0, 0, 4)
           | CrsNew n => {| numPoints := n; getG1Data := []; getG2Data := [] |}
           | CommonInitSlabAllocator _ _ => tt
           | SrsInitSrs _ _ _ _ => tt
           | AcirNewAcirComposer _ _ => 9%nat
           | AcirInitProvingKey _ _ _ => tt
           | AcirCreateProof _ _ _ _ _ => sample_buffer
           | AcirSerializeProofIntoFields _ _ _ _ => []
           | AcirInitVerificationKey _ _ => tt
           | AcirSerializeVerificationKeyIntoFields _ _ => ([], tt)
           | AcirVerifyProof _ _ _ _ => true
           | ApiDestroy _ => tt
           | Gunzip data => data
           end)).

Definition sample_circuit : CompiledCircuit :=
  {| bytecode := str "H4sIAAAAAAAA"; abi := sample_abi |}.

(** The backend the constructor builds for [sample_circuit]. *)
Definition sample_backend : BarretenbergBackend nat nat :=
  {| api := None;
     acirComposer := None;
     acirUncompressedBytecode := [x01; x02];
     acirCircuit := sample_circuit;
     options := {| threads := 1 |} |}.

(** The calls [instantiate] makes to set the native side up. *)
Definition setup_calls : list CallName :=
  [ import_bb_js; Barretenberg_new; acirGetCircuitSizes; Crs_new;
    commonInitSlabAllocator; srsInitSrs; acirNewAcirComposer; acirInitProvingKey ].

(** A native side on which [Crs.new] rejects. *)
Definition crs_failing_handler : Handler nat nat unit nat :=
  fun R c w =>
    match call_name nat nat unit c with
    | Crs_new => (S w, None)
    | _ => sample_handler R c w
    end.

(** [sample_backend] after a completed [instantiate]. *)
Definition instantiated_backend : BarretenbergBackend nat nat :=
  {| api := Some 7%nat;
     acirComposer := Some 9%nat;
     acirUncompressedBytecode := [x01; x02];
     acirCircuit := sample_circuit;
     options := {| threads := 1 |} |}.

(** * Properties *)

(** ** Outcomes *)

Lemma rmap_ok {A B : Type} (f : A -> outcome B) (g : A -> B) (l : list A) :
  Forall (fun x => f x = Ok (g x)) l -> rmap f l = Ok (map g l).
Proof.
  induction 1 as [|x l Hx _ IH]; simpl.
  - reflexivity.
  - rewrite Hx. simpl. rewrite IH. reflexivity.
Qed.

(** ** [flattenUint8Arrays] *)

Lemma total_length_from (arrays : list Uint8Array) (n : nat) :
  fold_left (fun acc val => (acc + length val)%nat) arrays n
  = (n + length (concat arrays))%nat.
Proof.
  revert n. induction arrays as [|arr rest IH]; intros n; simpl.
  - lia.
  - rewrite IH, length_app. lia.
Qed.

Lemma length_concat_sum (arrays : list Uint8Array) :
  length (concat arrays) = list_sum (map (@length byte) arrays).
Proof.
  induction arrays as [|arr rest IH]; simpl.
  - reflexivity.
  - rewrite length_app, IH. reflexivity.
Qed.

Lemma u8_set_fits (a src : Uint8Array) (offset : nat) :
  (offset + length src <= length a)%nat ->
  u8_set a src offset
  = Ok (firstn offset a ++ src ++ skipn (offset + length src) a).
Proof.
  intros H. unfold u8_set.
  destruct (Nat.leb_spec (offset + length src) (length a)) as [_|Hlt].
  - reflexivity.
  - lia.
Qed.

Lemma u8_set_middle (pre old src post : Uint8Array) :
  length old = length src ->
  u8_set (pre ++ old ++ post) src (length pre) = Ok (pre ++ src ++ post).
Proof.
  intros Hlen. rewrite u8_set_fits by (rewrite !length_app; lia).
  rewrite firstn_app, firstn_all, Nat.sub_diag, firstn_O, app_nil_r.
  rewrite skipn_app, skipn_all2 by lia. simpl.
  replace (length pre + length src - length pre)%nat with (length old) by lia.
  rewrite skipn_app, skipn_all, Nat.sub_diag. reflexivity.
Qed.

Lemma flatten_loop_fits (arrays : list Uint8Array) :
  forall pre mid post : Uint8Array,
    length mid = length (concat arrays) ->
    flatten_loop arrays (pre ++ mid ++ post) (length pre)
    = Ok (pre ++ concat arrays ++ post).
Proof.
  induction arrays as [|arr rest IH]; intros pre mid post Hlen; simpl in *.
  - destruct mid; [reflexivity | discriminate].
  - rewrite length_app in Hlen.
    rewrite <- (firstn_skipn (length arr) mid), <- app_assoc.
    rewrite u8_set_middle by (rewrite length_firstn; lia).
    simpl. rewrite <- length_app, app_assoc.
    rewrite IH by (rewrite length_skipn; lia).
    rewrite <- !app_assoc. reflexivity.
Qed.

Lemma flattenUint8Arrays_concat (arrays : list Uint8Array) :
  flattenUint8Arrays arrays = Ok (concat arrays).
Proof.
  unfold flattenUint8Arrays. rewrite total_length_from. simpl.
  pose proof (flatten_loop_fits arrays [] (repeat x00 (length (concat arrays))) [])
    as H.
  simpl in H. rewrite !app_nil_r in H. apply H, repeat_length.
Qed.

(** C9. [flattenUint8Arrays] returns the concatenation of its inputs in
    order: its length is the sum of the input lengths, and each input
    array is found whole at the offset that is the total length of the
    arrays before it. *)
Theorem flattenUint8Arrays_in_order :
  (forall arrays : list Uint8Array,
      flattenUint8Arrays arrays = Ok (concat arrays)
      /\ length (concat arrays) = list_sum (map (@length byte) arrays))
  /\ (forall (before : list Uint8Array) (arr : Uint8Array) (after : list Uint8Array),
         exists result,
           flattenUint8Arrays (before ++ arr :: after) = Ok result
           /\ u8_slice result
                (Z.of_nat (list_sum (map (@length byte) before)))
                (Z.of_nat (list_sum (map (@length byte) before) + length arr))
              = arr).
Proof.
  split.
  - intros arrays. split.
    + apply flattenUint8Arrays_concat.
    + apply length_concat_sum.
  - intros before arr after. eexists. split.
    + apply flattenUint8Arrays_concat.
    + rewrite concat_app. simpl. rewrite <- length_concat_sum.
      unfold u8_slice, relative_index.
      rewrite !length_app.
      destruct (Z.ltb_spec (Z.of_nat (length (concat before))) 0) as [Hneg|_];
        [lia|].
      destruct (Z.ltb_spec (Z.of_nat (length (concat before) + length arr)) 0)
        as [Hneg|_]; [lia|].
      rewrite !Z.min_l by lia.
      rewrite Nat2Z.id.
      replace (Z.to_nat (Z.of_nat (length (concat before) + length arr)
                         - Z.of_nat (length (concat before))))
        with (length arr) by lia.
      rewrite skipn_app, skipn_all, Nat.sub_diag. simpl.
      rewrite firstn_app, firstn_all, Nat.sub_diag. simpl.
      apply app_nil_r.
Qed.

(** ** Hexadecimal digits *)

Lemma below_16_cases (d : N) :
  (d < 16)%N -> In d (map N.of_nat (seq 0 16)).
Proof.
  intros H. rewrite <- (N2Nat.id d). apply in_map, in_seq. lia.
Qed.

Ltac each_digit d H :=
  apply below_16_cases in H; simpl in H;
  repeat (destruct H as [H|H]; [subst d|]); [..|contradiction].

Lemma radix_digit_hex_char (d : N) :
  (d < 16)%N -> radix_digit 16 (hex_char d) = Some d.
Proof. intros H. each_digit d H; reflexivity. Qed.

Lemma hex_char_not_white_space (d : N) :
  (d < 16)%N -> is_white_space (hex_char d) = false.
Proof. intros H. each_digit d H; reflexivity. Qed.

Lemma digits_value_hex_chars (ds : list N) :
  Forall (fun d => (d < 16)%N) ds ->
  forall acc,
    digits_value 16 acc (map hex_char ds)
    = Some (fold_left (fun acc d => (acc * 16 + d)%N) ds acc).
Proof.
  induction 1 as [|d ds Hd _ IH]; intros acc; simpl.
  - reflexivity.
  - rewrite radix_digit_hex_char by assumption. apply IH.
Qed.

Lemma hex_digits_from_acc (steps : nat) :
  forall n acc, hex_digits_from steps n acc = hex_digits_from steps n [] ++ acc.
Proof.
  induction steps as [|steps IH]; intros n acc; simpl.
  - reflexivity.
  - destruct (n =? 0)%N; [reflexivity|].
    rewrite IH, (IH _ [_]), <- app_assoc. reflexivity.
Qed.

Lemma log2_div_16 (n : N) : (16 <= n)%N -> (N.log2 (n / 16) < N.log2 n)%N.
Proof.
  intros H.
  change 16%N with (2 ^ 4)%N. rewrite <- N.shiftr_div_pow2, N.log2_shiftr.
  pose proof (N.log2_le_mono 16 n H) as Hlog.
  change (N.log2 16) with 4%N in Hlog. lia.
Qed.

Lemma hex_digits_from_enough (steps1 : nat) :
  forall steps2 n acc,
    (N.to_nat (N.log2 n) < steps1)%nat ->
    (N.to_nat (N.log2 n) < steps2)%nat ->
    hex_digits_from steps1 n acc = hex_digits_from steps2 n acc.
Proof.
  induction steps1 as [|steps1 IH]; intros steps2 n acc H1 H2; [lia|].
  destruct steps2 as [|steps2]; [lia|]. simpl.
  destruct (N.eqb_spec n 0) as [|Hn]; [reflexivity|].
  destruct (N.lt_ge_cases n 16) as [Hsmall|Hbig].
  - rewrite (N.div_small n 16) by assumption.
    destruct steps1, steps2; reflexivity.
  - pose proof (log2_div_16 n Hbig). apply IH; lia.
Qed.

Lemma hex_digits_zero : hex_digits 0 = [].
Proof. reflexivity. Qed.

Lemma hex_digits_step (n : N) :
  n <> 0%N -> hex_digits n = hex_digits (n / 16) ++ [hex_char (n mod 16)].
Proof.
  intros Hn. unfold hex_digits at 1. simpl.
  destruct (N.eqb_spec n 0) as [|_]; [contradiction|].
  rewrite hex_digits_from_acc. f_equal.
  destruct (N.lt_ge_cases n 16) as [Hsmall|Hbig].
  - rewrite (N.div_small n 16) by assumption.
    destruct (N.to_nat (N.log2 n)); reflexivity.
  - pose proof (log2_div_16 n Hbig).
    destruct (N.to_nat (N.log2 n)) as [|k] eqn:Hk; [lia|].
    apply hex_digits_from_enough; lia.
Qed.

Lemma digits_number_snoc (ds : list N) (d : N) :
  digits_number (ds ++ [d]) = (digits_number ds * 16 + d)%N.
Proof. unfold digits_number. rewrite fold_left_app. reflexivity. Qed.

Lemma strip_zeros_nil_iff (ds : list N) :
  strip_zeros ds = [] <-> digits_number ds = 0%N.
Proof.
  induction ds as [|d ds IH] using rev_ind.
  - simpl. split; reflexivity.
  - rewrite digits_number_snoc. split.
    + intros H.
      assert (Hsnoc : forall l, strip_zeros (l ++ [d]) = [] ->
                                strip_zeros l = [] /\ d = 0%N).
      { clear. induction l as [|x l IHl]; simpl.
        - destruct d; [split; reflexivity | discriminate].
        - destruct x; [exact IHl | discriminate]. }
      destruct (Hsnoc ds H) as [Hds Hd]. apply IH in Hds. lia.
    + intros H. assert (Hds : digits_number ds = 0%N) by lia.
      assert (Hd : d = 0%N) by lia. subst d.
      apply IH in Hds. clear -Hds.
      induction ds as [|x l IHl]; simpl in *; [reflexivity|].
      destruct x; [auto | discriminate].
Qed.

Lemma strip_zeros_snoc (ds : list N) (d : N) :
  (digits_number ds * 16 + d)%N <> 0%N ->
  strip_zeros (ds ++ [d]) = strip_zeros ds ++ [d].
Proof.
  intros H. induction ds as [|x l IHl].
  - simpl in *. destruct d; [contradiction | reflexivity].
  - simpl. destruct x as [|p].
    + apply IHl. exact H.
    + reflexivity.
Qed.

Lemma hex_digits_of_digits (ds : list N) :
  Forall (fun d => (d < 16)%N) ds ->
  hex_digits (digits_number ds) = map hex_char (strip_zeros ds).
Proof.
  induction ds as [|d ds IH] using rev_ind; intros Hds.
  - reflexivity.
  - apply Forall_app in Hds. destruct Hds as [Hds Hd].
    inversion Hd as [|? ? Hd16 _]; subst.
    rewrite digits_number_snoc.
    destruct (N.eq_dec (digits_number ds * 16 + d) 0) as [Hz|Hnz].
    + rewrite Hz. symmetry.
      rewrite (proj2 (strip_zeros_nil_iff (ds ++ [d]))); [reflexivity|].
      rewrite digits_number_snoc. exact Hz.
    + rewrite hex_digits_step by assumption.
      rewrite strip_zeros_snoc by assumption.
      rewrite map_app. simpl.
      replace ((digits_number ds * 16 + d) / 16)%N with (digits_number ds)
        by (apply N.div_unique with d; lia).
      replace ((digits_number ds * 16 + d) mod 16)%N with d
        by (apply N.mod_unique with (digits_number ds); lia).
      rewrite IH by assumption. reflexivity.
Qed.

Lemma strip_zeros_split (ds : list N) :
  ds = repeat 0%N (length ds - length (strip_zeros ds)) ++ strip_zeros ds
  /\ (length (strip_zeros ds) <= length ds)%nat.
Proof.
  induction ds as [|d ds [IH1 IH2]].
  - split; [reflexivity | simpl; lia].
  - destruct d as [|p].
    + change (strip_zeros (0%N :: ds)) with (strip_zeros ds).
      change (length (0%N :: ds)) with (S (length ds)).
      split; [|lia].
      replace (S (length ds) - length (strip_zeros ds))%nat
        with (S (length ds - length (strip_zeros ds))) by lia.
      cbn [repeat app]. f_equal. exact IH1.
    + change (strip_zeros (N.pos p :: ds)) with (N.pos p :: ds).
      rewrite Nat.sub_diag. split; [reflexivity | lia].
Qed.

Lemma map_hex_char_zeros (k : nat) :
  map hex_char (repeat 0%N k) = repeat "0"%char k.
Proof. induction k as [|k IH]; simpl; [|rewrite IH]; reflexivity. Qed.

Lemma repeat_snoc {A : Type} (x : A) (k : nat) :
  repeat x k ++ [x] = repeat x (S k).
Proof. induction k as [|k IH]; simpl; [|rewrite IH]; reflexivity. Qed.

(** Printing the number of a digit list and padding it to the length of
    the list gives the digit list back. *)
Lemma padStart_toString16_digits (ds : list N) :
  Forall (fun d => (d < 16)%N) ds ->
  ds <> [] ->
  padStart (N_toString16 (digits_number ds)) (length ds) "0" = map hex_char ds.
Proof.
  intros Hds Hne. unfold N_toString16, padStart.
  destruct (strip_zeros_split ds) as [Hsplit Hle].
  destruct (N.eqb_spec (digits_number ds) 0) as [Hz|Hnz].
  - apply strip_zeros_nil_iff in Hz. rewrite Hz in Hsplit. simpl in Hsplit.
    rewrite app_nil_r, Nat.sub_0_r in Hsplit.
    rewrite Hsplit at 2. rewrite map_hex_char_zeros.
    destruct ds as [|d ds]; [contradiction|].
    change (length (str "0")) with 1%nat.
    change (str "0") with ["0"%char].
    rewrite repeat_snoc. f_equal. simpl. lia.
  - rewrite hex_digits_of_digits by assumption.
    rewrite length_map, <- map_hex_char_zeros, <- map_app, <- Hsplit.
    reflexivity.
Qed.

Lemma digits_number_bound (ds : list N) :
  Forall (fun d => (d < 16)%N) ds ->
  (digits_number ds < 16 ^ N.of_nat (length ds))%N.
Proof.
  induction ds as [|d ds IH] using rev_ind; intros Hds.
  - reflexivity.
  - apply Forall_app in Hds. destruct Hds as [Hds Hd].
    inversion Hd as [|? ? Hd16 _]; subst.
    rewrite digits_number_snoc, length_app. simpl length.
    replace (N.of_nat (length ds + 1)) with (N.succ (N.of_nat (length ds))) by lia.
    rewrite N.pow_succ_r'. specialize (IH Hds). lia.
Qed.

Lemma digits_of_number (k : nat) :
  forall n : N,
    (n < 16 ^ N.of_nat k)%N ->
    exists ds, length ds = k
               /\ Forall (fun d => (d < 16)%N) ds
               /\ digits_number ds = n.
Proof.
  induction k as [|k IH]; intros n Hn.
  - exists []. simpl in *. split; [reflexivity|]. split; [apply Forall_nil|].
    unfold digits_number. simpl. lia.
  - replace (N.of_nat (S k)) with (N.succ (N.of_nat k)) in Hn by lia.
    rewrite N.pow_succ_r' in Hn.
    destruct (IH (n / 16)%N) as (ds & Hlen & Hds & Hval).
    { apply N.Div0.div_lt_upper_bound. exact Hn. }
    exists (ds ++ [n mod 16])%N. split; [|split].
    + rewrite length_app. simpl. lia.
    + apply Forall_app. split; [exact Hds|].
      constructor; [|constructor]. apply N.mod_lt. lia.
    + rewrite digits_number_snoc, Hval.
      pose proof (N.div_mod n 16). lia.
Qed.

Lemma strip_zeros_number (ds : list N) :
  digits_number (strip_zeros ds) = digits_number ds.
Proof.
  destruct (strip_zeros_split ds) as [Hsplit _].
  rewrite Hsplit at 2.
  generalize (length ds - length (strip_zeros ds))%nat as k.
  induction k as [|k IH]; simpl; [reflexivity|]. exact IH.
Qed.

Lemma strip_zeros_Forall (P : N -> Prop) (ds : list N) :
  Forall P ds -> Forall P (strip_zeros ds).
Proof.
  induction 1 as [|d ds Hd Hds IH]; simpl; [constructor|].
  destruct d; [exact IH | constructor; assumption].
Qed.

(** The digits [toString(16)] prints for a number that is not zero. *)
Lemma hex_digits_exist (n : N) :
  exists ds, Forall (fun d => (d < 16)%N) ds
             /\ digits_number ds = n
             /\ hex_digits n = map hex_char ds.
Proof.
  destruct (digits_of_number (S (N.to_nat (N.log2 n))) n) as (ds & _ & Hds & Hval).
  { destruct (N.eq_dec n 0) as [->|Hn]; [simpl; lia|].
    pose proof (N.log2_spec n ltac:(lia)) as [_ Hup].
    eapply N.lt_le_trans; [exact Hup|].
    replace (N.of_nat (S (N.to_nat (N.log2 n)))) with (N.succ (N.log2 n)) by lia.
    apply N.pow_le_mono_l. lia. }
  exists (strip_zeros ds). split; [|split].
  - apply strip_zeros_Forall. exact Hds.
  - rewrite strip_zeros_number. exact Hval.
  - rewrite <- Hval. apply hex_digits_of_digits. exact Hds.
Qed.

(** ** The loop of [hexToUint8Array] *)

Lemma list_pair_ind {A : Type} (P : list A -> Prop) :
  P [] -> (forall a, P [a]) -> (forall a b l, P l -> P (a :: b :: l)) ->
  forall l, P l.
Proof.
  intros Hnil Hone Hstep.
  assert (H : forall l, P l /\ forall a, P (a :: l)).
  { induction l as [|x l [IH1 IH2]]; split; auto. }
  intros l. apply H.
Qed.

Lemma length_pair_bytes (s : jsstring) :
  length (pair_bytes s) = Nat.div2 (length s).
Proof.
  induction s as [|a|a b s IH] using list_pair_ind; simpl; [reflexivity..|].
  rewrite IH. reflexivity.
Qed.

Lemma pair_bytes_app (done todo : jsstring) :
  Nat.Even (length done) ->
  pair_bytes (done ++ todo) = pair_bytes done ++ pair_bytes todo.
Proof.
  revert todo. induction done as [|a|a b s IH] using list_pair_ind; intros todo Hev.
  - reflexivity.
  - destruct Hev as [k Hk]. simpl in Hk. lia.
  - simpl. rewrite IH; [reflexivity|].
    destruct Hev as [k Hk]. simpl in Hk. exists (k - 1)%nat. lia.
Qed.

Lemma num_lt_half (i m : nat) :
  num_lt (Z.of_nat i) (inject_Z (Z.of_nat m) / 2) = (2 * i <? m)%nat.
Proof.
  unfold num_lt, Qle_bool, Qdiv, Qmult, Qinv, inject_Z.
  cbn -[Nat.mul Z.mul Nat.ltb Z.leb].
  destruct (Nat.ltb_spec (2 * i) m);
    destruct (Z.leb_spec (Z.of_nat m * 1 * 1) (Z.of_nat i * 2));
    simpl; try reflexivity; lia.
Qed.

Lemma new_Uint8Array_half (m : nat) :
  new_Uint8Array (inject_Z (Z.of_nat m) / 2) = repeat x00 (Nat.div2 m).
Proof.
  unfold new_Uint8Array, Qfloor, Qdiv, Qmult, Qinv, inject_Z.
  cbn -[Nat.mul Z.mul Z.div Nat.div2].
  f_equal. rewrite Z.mul_1_r, Nat.div2_div.
  change 2 with (Z.of_nat 2). rewrite <- Nat2Z.inj_div. apply Nat2Z.id.
Qed.

Lemma u8_store_outside (a : Uint8Array) :
  forall i v, (length a <= i)%nat -> u8_store a i v = a.
Proof.
  induction a as [|b a IH]; intros i v Hi; simpl in *.
  - reflexivity.
  - destruct i as [|i]; [lia|]. rewrite IH by lia. reflexivity.
Qed.

Lemma u8_store_middle (pre : Uint8Array) :
  forall old post v, u8_store (pre ++ old :: post) (length pre) v = pre ++ v :: post.
Proof.
  induction pre as [|b pre IH]; intros old post v; simpl.
  - reflexivity.
  - rewrite IH. reflexivity.
Qed.

Lemma u8_assign_nat (a : Uint8Array) (i : nat) (v : option Z) :
  u8_assign a (Z.of_nat i) v = u8_store a i (ToUint8 v).
Proof.
  unfold u8_assign. destruct (Z.ltb_spec (Z.of_nat i) 0); [lia|].
  rewrite Nat2Z.id. reflexivity.
Qed.

Lemma str_slice_two (done : jsstring) (a b : ascii) (rest : jsstring) :
  str_slice (done ++ a :: b :: rest) (Z.of_nat (length done))
    (Z.of_nat (length done) + 2) = [a; b].
Proof.
  unfold str_slice. rewrite Nat2Z.id.
  replace (Z.to_nat (Z.of_nat (length done) + 2 - Z.of_nat (length done)))
    with 2%nat by lia.
  rewrite skipn_app, skipn_all, Nat.sub_diag. reflexivity.
Qed.

Lemma hex_loop_pairs (fuel : nat) :
  forall (todo done : jsstring) (out : Uint8Array),
    length done = (2 * length out)%nat ->
    (length todo + 2 <= 2 * fuel)%nat ->
    hex_loop fuel (done ++ todo)
      (inject_Z (Z.of_nat (length (done ++ todo))) / 2)
      (out ++ repeat x00 (length (pair_bytes todo)))
      (Z.of_nat (length out)) (Z.of_nat (length done))
    = Ok (out ++ pair_bytes todo).
Proof.
  induction fuel as [|fuel IH]; intros todo done out Hdone Hfuel; [lia|].
  cbn [hex_loop]. rewrite num_lt_half, length_app.
  destruct todo as [|a [|b rest]].
  - simpl length. destruct (Nat.ltb_spec (2 * length out) (length done + 0)); [lia|].
    reflexivity.
  - simpl length. destruct (Nat.ltb_spec (2 * length out) (length done + 1)); [|lia].
    simpl in Hfuel. destruct fuel as [|fuel]; [lia|].
    cbn [hex_loop pair_bytes repeat]. rewrite u8_assign_nat.
    rewrite u8_store_outside by (rewrite app_nil_r; lia).
    replace (Z.of_nat (length out) + 1) with (Z.of_nat (S (length out))) by lia.
    rewrite num_lt_half.
    destruct (Nat.ltb_spec (2 * S (length out)) (length done + 1)); [lia|].
    reflexivity.
  - destruct (Nat.ltb_spec (2 * length out) (length done + length (a :: b :: rest)));
      [|simpl in *; lia].
    rewrite str_slice_two, u8_assign_nat.
    cbn [pair_bytes length repeat]. rewrite u8_store_middle.
    set (v := ToUint8 (parseInt16 [a; b])).
    replace (Z.of_nat (length out) + 1) with (Z.of_nat (length (out ++ [v])))
      by (rewrite length_app; simpl; lia).
    replace (Z.of_nat (length done) + 2) with (Z.of_nat (length (done ++ [a; b])))
      by (rewrite length_app; simpl; lia).
    replace (length done + S (S (length rest)))%nat
      with (length ((done ++ [a; b]) ++ rest))
      by (rewrite !length_app; simpl; lia).
    replace (done ++ a :: b :: rest) with ((done ++ [a; b]) ++ rest)
      by (rewrite <- app_assoc; reflexivity).
    replace (out ++ v :: repeat x00 (length (pair_bytes rest)))
      with ((out ++ [v]) ++ repeat x00 (length (pair_bytes rest)))
      by (rewrite <- app_assoc; reflexivity).
    rewrite IH.
    + rewrite <- app_assoc. reflexivity.
    + rewrite !length_app. simpl. lia.
    + simpl in Hfuel. lia.
Qed.

(** [hexToUint8Array] goes wrong only where [BigInt] does; otherwise it
    returns the bytes read pairwise from the sanitised string. *)
Lemma hexToUint8Array_pairs (hex : jsstring) (z : Z) :
  BigInt hex = Ok z ->
  hexToUint8Array hex = Ok (pair_bytes (sanitise z)).
Proof.
  intros Hz. unfold hexToUint8Array. rewrite Hz. cbn [rbind].
  rewrite new_Uint8Array_half, <- length_pair_bytes.
  pose proof (hex_loop_pairs (S (length (sanitise z))) (sanitise z) [] []) as H.
  apply H; simpl; lia.
Qed.

Lemma hexToUint8Array_throws (hex : jsstring) :
  StringToBigInt hex = None -> hexToUint8Array hex = Throw SyntaxError.
Proof.
  intros H. unfold hexToUint8Array, BigInt. rewrite H. reflexivity.
Qed.

(** ** Bytes and their two digits *)

Lemma byte_hex_nibbles (b : byte) : byte_hex b = map hex_char (nibbles b).
Proof. destruct b; reflexivity. Qed.

Lemma nibbles_below_16 (b : byte) : Forall (fun d => (d < 16)%N) (nibbles b).
Proof.
  unfold nibbles. pose proof (Byte.to_N_bounded b).
  repeat constructor.
  - apply N.Div0.div_lt_upper_bound. lia.
  - apply N.mod_lt. lia.
Qed.

Lemma pair_byte_of_nibbles (b : byte) :
  pair_bytes (map hex_char (nibbles b)) = [b].
Proof. destruct b; reflexivity. Qed.

Lemma pair_byte_value (a b : N) :
  (a < 16)%N -> (b < 16)%N ->
  Byte.to_N (ToUint8 (parseInt16 [hex_char a; hex_char b])) = (a * 16 + b)%N.
Proof.
  intros Ha Hb. each_digit a Ha; each_digit b Hb; reflexivity.
Qed.

Lemma pair_bytes_hex_of_bytes (v : Uint8Array) :
  pair_bytes (map hex_char (flat_map nibbles v)) = v.
Proof.
  induction v as [|b v IH]; [reflexivity|].
  cbn [flat_map]. rewrite map_app, pair_bytes_app.
  - rewrite pair_byte_of_nibbles, IH. reflexivity.
  - exists 1%nat. reflexivity.
Qed.

Lemma uint8ArrayToHex_digits (v : Uint8Array) :
  uint8ArrayToHex v = str "0x" ++ map hex_char (flat_map nibbles v).
Proof.
  unfold uint8ArrayToHex. f_equal.
  induction v as [|b v IH]; [reflexivity|].
  cbn [map concat flat_map]. rewrite map_app, IH, byte_hex_nibbles. reflexivity.
Qed.

Lemma flat_map_nibbles_below_16 (v : Uint8Array) :
  Forall (fun d => (d < 16)%N) (flat_map nibbles v).
Proof.
  induction v as [|b v IH]; simpl; [constructor|].
  pose proof (nibbles_below_16 b) as H. unfold nibbles in *.
  inversion H as [|? ? H1 H2]; subst. inversion H2; subst.
  repeat (constructor; [assumption|]). exact IH.
Qed.

Lemma length_flat_map_nibbles (v : Uint8Array) :
  length (flat_map nibbles v) = (2 * length v)%nat.
Proof. induction v as [|b v IH]; simpl; [reflexivity | rewrite IH; lia]. Qed.

(** ** The codec on small inputs *)

Example hexToUint8Array_one :
  hexToUint8Array (str "0x1") = Ok (repeat x00 31 ++ [x01]).
Proof. vm_compute. reflexivity. Qed.

Example uint8ArrayToHex_small :
  uint8ArrayToHex [x00; x0a; xff] = str "0x000aff".
Proof. vm_compute. reflexivity. Qed.

(** ** [BigInt] on the strings [uint8ArrayToHex] writes *)

Lemma trim_clean (a : ascii) (l : jsstring) :
  is_white_space a = false ->
  is_white_space (last (a :: l) a) = false ->
  trim (a :: l) = a :: l.
Proof.
  intros Ha Hlast. unfold trim. cbn [trim_start]. rewrite Ha.
  destruct (exists_last (l := a :: l)) as (l' & e & Heq); [discriminate|].
  rewrite Heq in *. rewrite last_last in Hlast.
  rewrite rev_app_distr. cbn [rev app trim_start]. rewrite Hlast.
  cbn [rev]. rewrite rev_involutive. reflexivity.
Qed.

Lemma BigInt_hex_digits (ds : list N) :
  Forall (fun d => (d < 16)%N) ds ->
  ds <> [] ->
  BigInt (str "0x" ++ map hex_char ds) = Ok (Z.of_N (digits_number ds)).
Proof.
  intros Hds Hne. unfold BigInt, StringToBigInt.
  change (str "0x" ++ map hex_char ds) with ("0"%char :: "x"%char :: map hex_char ds).
  rewrite trim_clean.
  - cbn [starts_with str list_ascii_of_string].
    change (ascii_eqb "0" "0") with true. change (ascii_eqb "x" "x") with true.
    cbn [andb orb skipn].
    destruct ds as [|d ds]; [contradiction|].
    unfold nonempty_digits. cbn [map].
    change (hex_char d :: map hex_char ds) with (map hex_char (d :: ds)).
    rewrite digits_value_hex_chars by assumption. reflexivity.
  - reflexivity.
  - destruct (exists_last Hne) as (ds' & d & ->).
    apply Forall_app in Hds. destruct Hds as [_ Hd].
    inversion Hd as [|? ? Hd16 _]; subst.
    rewrite map_app. cbn [map].
    change ("0"%char :: "x"%char :: map hex_char ds' ++ [hex_char d])
      with (("0"%char :: "x"%char :: map hex_char ds') ++ [hex_char d]).
    rewrite last_last. apply hex_char_not_white_space. assumption.
Qed.

Lemma sanitise_digits (ds : list N) :
  Forall (fun d => (d < 16)%N) ds ->
  length ds = 64%nat ->
  sanitise (Z.of_N (digits_number ds)) = map hex_char ds.
Proof.
  intros Hds Hlen. unfold sanitise, BigInt_toString16.
  destruct (Z.ltb_spec (Z.of_N (digits_number ds)) 0) as [Hneg|_]; [lia|].
  rewrite N2Z.id, <- Hlen. apply padStart_toString16_digits; [assumption|].
  intros ->. discriminate.
Qed.

Lemma hex_string_read_back (v : Uint8Array) :
  length v = 32%nat ->
  hexToUint8Array (uint8ArrayToHex v) = Ok v.
Proof.
  intros Hlen. rewrite uint8ArrayToHex_digits.
  assert (Hds : Forall (fun d => (d < 16)%N) (flat_map nibbles v))
    by apply flat_map_nibbles_below_16.
  assert (Hlen64 : length (flat_map nibbles v) = 64%nat)
    by (rewrite length_flat_map_nibbles; lia).
  rewrite (hexToUint8Array_pairs _ (Z.of_N (digits_number (flat_map nibbles v)))).
  - rewrite sanitise_digits by assumption.
    rewrite pair_bytes_hex_of_bytes. reflexivity.
  - apply BigInt_hex_digits; [assumption|].
    intros Hnil. rewrite Hnil in Hlen64. discriminate.
Qed.

(** C3. A 32-byte buffer written as a hex string by [uint8ArrayToHex]
    and read back by [hexToUint8Array] is the same buffer. *)
Theorem hexToUint8Array_uint8ArrayToHex (v : Uint8Array) :
  length v = 32%nat ->
  hexToUint8Array (uint8ArrayToHex v) = Ok v.
Proof. exact (hex_string_read_back v). Qed.

Lemma hexToUint8Array_uint8ArrayToHex_witness :
  hexToUint8Array (uint8ArrayToHex sample_field) = Ok sample_field.
Proof. apply hexToUint8Array_uint8ArrayToHex. reflexivity. Defined.

(** ** The value of the bytes read from a digit string *)

Lemma pair_bytes_number (ds : list N) :
  Forall (fun d => (d < 16)%N) ds ->
  Nat.Even (length ds) ->
  forall acc,
    fold_left (fun acc b => (acc * 256 + Byte.to_N b)%N)
      (pair_bytes (map hex_char ds)) acc
    = fold_left (fun acc d => (acc * 16 + d)%N) ds acc.
Proof.
  induction ds as [|a|a b ds IH] using list_pair_ind; intros Hds Hev acc.
  - reflexivity.
  - destruct Hev as [k Hk]. simpl in Hk. lia.
  - inversion Hds as [|? ? Ha Hds']; subst.
    inversion Hds' as [|? ? Hb Hds'']; subst.
    cbn [map pair_bytes fold_left].
    rewrite pair_byte_value by assumption.
    rewrite IH.
    + f_equal. lia.
    + assumption.
    + destruct Hev as [k Hk]. simpl in Hk. exists (k - 1)%nat. lia.
Qed.

Lemma big_endian_pair_bytes_even (ds : list N) :
  Forall (fun d => (d < 16)%N) ds ->
  Nat.Even (length ds) ->
  big_endian (pair_bytes (map hex_char ds)) = digits_number ds.
Proof. intros Hds Hev. apply pair_bytes_number; assumption. Qed.

Lemma big_endian_pair_bytes_odd (ds : list N) :
  Forall (fun d => (d < 16)%N) ds ->
  Nat.Odd (length ds) ->
  big_endian (pair_bytes (map hex_char ds)) = (digits_number ds / 16)%N.
Proof.
  intros Hds Hodd.
  destruct (exists_last (l := ds)) as (ds' & d & ->).
  { intros ->. destruct Hodd as [k Hk]. simpl in Hk. lia. }
  apply Forall_app in Hds. destruct Hds as [Hds' Hd].
  inversion Hd as [|? ? Hd16 _]; subst.
  assert (Hev : Nat.Even (length ds')).
  { destruct Hodd as [k Hk]. rewrite length_app in Hk. simpl in Hk.
    exists k. lia. }
  rewrite map_app, pair_bytes_app by (rewrite length_map; exact Hev).
  cbn [map pair_bytes]. rewrite app_nil_r.
  rewrite big_endian_pair_bytes_even by assumption.
  rewrite digits_number_snoc.
  apply N.div_unique with d; lia.
Qed.

(** ** [hexToUint8Array] on values that fit in 32 bytes *)








(** The same value in other spellings [BigInt] accepts. *)
Example hexToUint8Array_spellings :
  hexToUint8Array (str "0xff") = Ok (repeat x00 31 ++ [xff])
  /\ hexToUint8Array (str "0x000ff") = Ok (repeat x00 31 ++ [xff])
  /\ hexToUint8Array (str "0XFF") = Ok (repeat x00 31 ++ [xff])
  /\ hexToUint8Array (str " 255 ") = Ok (repeat x00 31 ++ [xff])
  /\ hexToUint8Array (str "ff") = Throw SyntaxError.
Proof. vm_compute. repeat split. Qed.

(** ** [hexToUint8Array] on wider values *)

Lemma Even_Odd_even (m : nat) :
  (Nat.even m = true /\ Nat.Even m) \/ (Nat.even m = false /\ Nat.Odd m).
Proof.
  destruct (Nat.even m) eqn:E.
  - left. split; [reflexivity|]. apply Nat.even_spec. exact E.
  - right. split; [reflexivity|]. apply Nat.odd_spec.
    unfold Nat.odd. rewrite E. reflexivity.
Qed.

(** C7, amended. A value of more than 64 hexadecimal digits raises no
    error. With [m] the number of its digits, [hexToUint8Array] returns
    [m / 2] bytes, rounded down, so at least 32: the big-endian bytes of
    the value when [m] is even, and of the value without its last digit
    when [m] is odd. *)
Theorem hexToUint8Array_wide (hex : jsstring) (z : Z) :
  BigInt hex = Ok z ->
  2 ^ 256 <= z ->
  let m := length (BigInt_toString16 z) in
  (64 < m)%nat
  /\ exists bytes,
      hexToUint8Array hex = Ok bytes
      /\ length bytes = Nat.div2 m
      /\ Z.of_N (big_endian bytes) = if Nat.even m then z else z / 16.
Proof.
  intros Hz Hwide m.
  destruct (hex_digits_exist (Z.to_N z)) as (ds & Hds & Hval & Hdigits).
  assert (Hstr : BigInt_toString16 z = map hex_char ds).
  { unfold BigInt_toString16, N_toString16.
    destruct (Z.ltb_spec z 0) as [Hneg|_]; [lia|].
    destruct (N.eqb_spec (Z.to_N z) 0) as [H0|_]; [lia|]. exact Hdigits. }
  assert (Hm : m = length ds) by (unfold m; rewrite Hstr, length_map; reflexivity).
  assert (Hlong : (64 < length ds)%nat).
  { destruct (Nat.le_gt_cases (length ds) 64) as [Hshort|Hok]; [|exact Hok].
    pose proof (digits_number_bound ds Hds) as Hb. rewrite Hval in Hb.
    assert (Hpow : (16 ^ N.of_nat (length ds) <= 16 ^ N.of_nat 64)%N)
      by (apply N.pow_le_mono_r; lia).
    change (16 ^ N.of_nat 64)%N with (Z.to_N (2 ^ 256)) in Hpow. lia. }
  assert (Hsan : sanitise z = map hex_char ds).
  { unfold sanitise, padStart. rewrite Hstr, length_map.
    replace (64 - length ds)%nat with 0%nat by lia. reflexivity. }
  split; [lia|].
  exists (pair_bytes (map hex_char ds)). split; [|split].
  - rewrite <- Hsan. apply hexToUint8Array_pairs. exact Hz.
  - rewrite length_pair_bytes, length_map, Hm. reflexivity.
  - rewrite Hm. destruct (Even_Odd_even (length ds)) as [[-> Hev]|[-> Hodd]].
    + rewrite big_endian_pair_bytes_even by assumption. lia.
    + rewrite big_endian_pair_bytes_odd by assumption.
      rewrite Hval, N2Z.inj_div, Z2N.id by lia. reflexivity.
Qed.

Lemma hexToUint8Array_wide_witness :
  BigInt wide_hex = Ok (2 ^ 260)
  /\ (64 < length (BigInt_toString16 (2 ^ 260)))%nat
  /\ exists bytes,
      hexToUint8Array wide_hex = Ok bytes
      /\ length bytes = Nat.div2 (length (BigInt_toString16 (2 ^ 260)))
      /\ Z.of_N (big_endian bytes)
         = if Nat.even (length (BigInt_toString16 (2 ^ 260)))
           then 2 ^ 260 else 2 ^ 260 / 16.
Proof.
  split; [reflexivity|].
  apply (hexToUint8Array_wide wide_hex (2 ^ 260)).
  - reflexivity.
  - vm_compute. discriminate.
Defined.

(** C7 as the specification words it does not hold: a value of 66
    hexadecimal digits comes back as 33 bytes, which are its big-endian
    bytes; nothing is truncated and the result is not 32 bytes long. *)
Lemma hexToUint8Array_wide_not_truncated :
  BigInt wide_hex = Ok (2 ^ 260)
  /\ hexToUint8Array wide_hex = Ok (x10 :: repeat x00 32)
  /\ Z.of_N (big_endian (x10 :: repeat x00 32)) = 2 ^ 260
  /\ ~ (forall hex z,
           BigInt hex = Ok z -> 2 ^ 256 <= z ->
           exists bytes,
             hexToUint8Array hex = Ok bytes
             /\ length bytes = 32%nat
             /\ Z.of_N (big_endian bytes) <> z).
Proof.
  split; [reflexivity|]. split; [vm_compute; reflexivity|].
  split; [vm_compute; reflexivity|].
  intros H. destruct (H wide_hex (2 ^ 260)) as (bytes & Hbytes & Hlen & _).
  - reflexivity.
  - vm_compute. discriminate.
  - assert (Hrun : hexToUint8Array wide_hex = Ok (x10 :: repeat x00 32))
      by (vm_compute; reflexivity).
    rewrite Hrun in Hbytes. clear Hrun H. injection Hbytes as <-.
    vm_compute in Hlen. discriminate Hlen.
Qed.

(** The one width at which the result has 32 bytes: 65 digits, where the
    last digit is lost. *)
Example hexToUint8Array_65_digits :
  hexToUint8Array (str "0x1" ++ repeat "0"%char 63 ++ str "f")
  = Ok (x10 :: repeat x00 31).
Proof. vm_compute. reflexivity. Qed.

(** ** Slices and chunks *)

Lemma u8_slice_nonneg (a : Uint8Array) (from to : Z) :
  0 <= from <= to ->
  u8_slice a from to = firstn (Z.to_nat (to - from)) (skipn (Z.to_nat from) a).
Proof.
  intros H. unfold u8_slice, relative_index.
  destruct (Z.ltb_spec from 0) as [|_]; [lia|].
  destruct (Z.ltb_spec to 0) as [|_]; [lia|].
  destruct (Z.le_gt_cases (Z.of_nat (length a)) from) as [Hout|Hin].
  - rewrite !skipn_all2 by lia. rewrite !firstn_nil. reflexivity.
  - rewrite (Z.min_l from) by lia.
    destruct (Z.le_gt_cases to (Z.of_nat (length a))) as [Hto|Hto].
    + rewrite Z.min_l by lia. reflexivity.
    + rewrite Z.min_r by lia.
      rewrite !firstn_all2; [reflexivity | |]; rewrite length_skipn; lia.
Qed.

Lemma u8_slice_prefix (pre tail : Uint8Array) :
  u8_slice (pre ++ tail) 0 (Z.of_nat (length (pre ++ tail)) - Z.of_nat (length tail))
  = pre.
Proof.
  rewrite u8_slice_nonneg by (rewrite length_app; lia).
  rewrite length_app. simpl skipn.
  replace (Z.to_nat (Z.of_nat (length pre + length tail) - Z.of_nat (length tail) - 0))
    with (length pre) by lia.
  rewrite firstn_app, firstn_all, Nat.sub_diag. simpl. apply app_nil_r.
Qed.

Lemma u8_slice_from_suffix (pre tail : Uint8Array) :
  u8_slice_from (pre ++ tail)
    (Z.of_nat (length (pre ++ tail)) - Z.of_nat (length tail))
  = tail.
Proof.
  unfold u8_slice_from.
  rewrite u8_slice_nonneg by (rewrite length_app; lia).
  rewrite length_app.
  replace (Z.to_nat (Z.of_nat (length pre + length tail) - Z.of_nat (length tail)))
    with (length pre) by lia.
  rewrite skipn_app, skipn_all, Nat.sub_diag. simpl.
  apply firstn_all2. lia.
Qed.

Lemma chunk_count_spec (buffer : Uint8Array) (k : nat) :
  (k < chunk_count buffer)%nat <-> (32 * k < length buffer)%nat.
Proof.
  unfold chunk_count.
  pose proof (Nat.div_mod_eq (length buffer + 31) 32) as Hdiv.
  pose proof (Nat.mod_upper_bound (length buffer + 31) 32 ltac:(lia)) as Hmod.
  lia.
Qed.

Lemma chunk_loop_chunks (buffer : Uint8Array) (fuel : nat) :
  forall (k : nat) (acc : list Uint8Array),
    (k <= chunk_count buffer)%nat ->
    (chunk_count buffer - k < fuel)%nat ->
    chunk_loop fuel buffer 32 (32 * Z.of_nat k) acc
    = Ok (acc ++ map (chunk_at buffer) (seq k (chunk_count buffer - k))).
Proof.
  induction fuel as [|fuel IH]; intros k acc Hk Hfuel; [lia|].
  cbn [chunk_loop].
  pose proof (chunk_count_spec buffer k) as Hspec.
  destruct (Z.ltb_spec (32 * Z.of_nat k) (Z.of_nat (length buffer))) as [Hlt|Hge].
  - assert (Hin : (k < chunk_count buffer)%nat) by (apply Hspec; lia).
    replace (32 * Z.of_nat k + 32) with (32 * Z.of_nat (S k)) by lia.
    rewrite IH by lia.
    replace (chunk_count buffer - k)%nat with (S (chunk_count buffer - S k)) by lia.
    cbn [seq map]. rewrite <- app_assoc. do 2 f_equal.
    rewrite u8_slice_nonneg by lia. unfold chunk_at. cbn [app]. f_equal.
    f_equal; [|f_equal]; lia.
  - assert (Hout : ~ (k < chunk_count buffer)%nat) by (rewrite Hspec; lia).
    replace (chunk_count buffer - k)%nat with 0%nat by lia.
    simpl. rewrite app_nil_r. reflexivity.
Qed.

(** The chunk loop always ends, with the chunks in order. *)
Lemma flattened_public_inputs_chunks (buffer : Uint8Array) :
  flattened_public_inputs buffer = Ok (chunks buffer).
Proof.
  unfold flattened_public_inputs, chunks.
  pose proof (chunk_loop_chunks buffer (S (length buffer)) 0 []) as H.
  rewrite Nat.sub_0_r in H. apply H; [lia|].
  assert (Hle : (chunk_count buffer <= length buffer)%nat); [|lia].
  unfold chunk_count.
  pose proof (Nat.div_mod_eq (length buffer + 31) 32) as Hdiv.
  pose proof (Nat.mod_upper_bound (length buffer + 31) 32 ltac:(lia)) as Hmod.
  destruct (length buffer) as [|n]; [reflexivity|]. lia.
Qed.

Lemma chunks_cons (c rest : Uint8Array) :
  length c = 32%nat ->
  chunks (c ++ rest) = c :: chunks rest.
Proof.
  intros Hc. unfold chunks.
  assert (Hcount : chunk_count (c ++ rest) = S (chunk_count rest)).
  { unfold chunk_count. rewrite length_app, Hc.
    replace (32 + length rest + 31)%nat with (1 * 32 + (length rest + 31))%nat by lia.
    rewrite Nat.div_add_l by lia. reflexivity. }
  rewrite Hcount. cbn [seq map]. f_equal.
  - unfold chunk_at. rewrite Nat.mul_0_r. cbn [skipn].
    rewrite firstn_app, <- Hc, firstn_all, Nat.sub_diag. simpl. apply app_nil_r.
  - rewrite <- seq_shift, map_map. apply map_ext. intros k.
    unfold chunk_at. f_equal.
    replace (32 * S k)%nat with (32 * k + length c)%nat by lia.
    rewrite <- skipn_skipn.
    rewrite skipn_app, skipn_all, Nat.sub_diag. reflexivity.
Qed.

Lemma chunks_nil : chunks [] = [].
Proof. reflexivity. Qed.

Lemma chunks_exact (n : nat) :
  forall buffer : Uint8Array,
    length buffer = (32 * n)%nat ->
    length (chunks buffer) = n
    /\ Forall (fun c => length c = 32%nat) (chunks buffer)
    /\ concat (chunks buffer) = buffer.
Proof.
  induction n as [|n IH]; intros buffer Hlen.
  - destruct buffer; [|discriminate]. rewrite chunks_nil.
    repeat split. constructor.
  - rewrite <- (firstn_skipn 32 buffer).
    assert (Hc : length (firstn 32 buffer) = 32%nat) by (rewrite length_firstn; lia).
    rewrite chunks_cons by exact Hc.
    destruct (IH (skipn 32 buffer)) as (H1 & H2 & H3).
    { rewrite length_skipn. lia. }
    cbn [length concat]. rewrite H1, H3. repeat split.
    constructor; assumption.
Qed.

(** ** [Set] and [sort] *)

Lemma Set_add_In (s : list N) (x y : N) :
  In y (Set_add s x) <-> In y s \/ y = x.
Proof.
  unfold Set_add. destruct (existsb (N.eqb x) s) eqn:E.
  - apply existsb_exists in E. destruct E as (x' & Hin & Heq).
    apply N.eqb_eq in Heq. subst x'. split; [auto|].
    intros [H| ->]; assumption.
  - rewrite in_app_iff. simpl. intuition.
Qed.

Lemma Set_add_NoDup (s : list N) (x : N) : NoDup s -> NoDup (Set_add s x).
Proof.
  intros Hs. unfold Set_add. destruct (existsb (N.eqb x) s) eqn:E; [exact Hs|].
  apply NoDup_app; [exact Hs | repeat constructor; simpl; tauto |].
  intros y Hy [<-|[]].
  assert (Hex : existsb (N.eqb x) s = true); [|congruence].
  apply existsb_exists. exists x. split; [exact Hy | apply N.eqb_refl].
Qed.

Lemma fold_Set_add (l : list N) :
  forall s, NoDup s ->
            NoDup (fold_left Set_add l s)
            /\ forall y, In y (fold_left Set_add l s) <-> In y s \/ In y l.
Proof.
  induction l as [|x l IH]; intros s Hs; simpl.
  - split; [exact Hs | intuition].
  - destruct (IH (Set_add s x) (Set_add_NoDup s x Hs)) as [Hnd Hin].
    split; [exact Hnd|]. intros y. rewrite Hin, Set_add_In. intuition.
Qed.

(** [new Set] removes the duplicates and nothing else. *)
Lemma new_Set_NoDup (l : list N) : NoDup (new_Set l).
Proof. apply (fold_Set_add l []). constructor. Qed.

Lemma new_Set_In (l : list N) (y : N) : In y (new_Set l) <-> In y l.
Proof.
  unfold new_Set. rewrite (proj2 (fold_Set_add l [] (NoDup_nil N))).
  simpl. intuition.
Qed.

Lemma str_ltb_asym (a : jsstring) :
  forall b, str_ltb a b = true -> str_ltb b a = false.
Proof.
  induction a as [|x a IH]; intros [|y b] H; simpl in *; try congruence.
  destruct (N.ltb_spec (code x) (code y)) as [Hxy|Hxy];
    destruct (N.ltb_spec (code y) (code x)) as [Hyx|Hyx];
    try reflexivity; try lia; try discriminate.
  apply IH. exact H.
Qed.

Lemma sort_insert_perm (x : N) (l : list N) : Permutation (x :: l) (sort_insert x l).
Proof.
  induction l as [|y l IH]; simpl.
  - apply Permutation_refl.
  - destruct (sort_before y x).
    + eapply perm_trans; [apply perm_swap|]. apply perm_skip. exact IH.
    + apply Permutation_refl.
Qed.

Lemma sort_perm (l : list N) : Permutation l (sort l).
Proof.
  induction l as [|x l IH]; simpl.
  - apply perm_nil.
  - eapply perm_trans; [apply perm_skip; exact IH|]. apply sort_insert_perm.
Qed.

Lemma sort_insert_sorted (x : N) (l : list N) :
  Sorted not_after l -> Sorted not_after (sort_insert x l).
Proof.
  induction 1 as [|y l Hl IH Hhd]; simpl.
  - repeat constructor.
  - destruct (sort_before y x) eqn:E.
    + constructor; [exact IH|].
      destruct l as [|z l]; simpl.
      * constructor. unfold not_after. apply str_ltb_asym. exact E.
      * destruct (sort_before z x).
        -- inversion Hhd; subst. constructor. assumption.
        -- constructor. unfold not_after. apply str_ltb_asym. exact E.
    + constructor; [constructor; assumption|]. constructor. exact E.
Qed.

(** [sort] leaves its result in the order of the strings. *)
Lemma sort_sorted (l : list N) : Sorted not_after (sort l).
Proof.
  induction l as [|x l IH]; simpl.
  - constructor.
  - apply sort_insert_sorted. exact IH.
Qed.

Lemma sort_of_sorted (l : list N) : Sorted not_after l -> sort l = l.
Proof.
  induction 1 as [|x l Hl IH Hhd]; simpl.
  - reflexivity.
  - rewrite IH. destruct Hhd as [|y l Hxy]; simpl.
    + reflexivity.
    + unfold not_after in Hxy. rewrite Hxy. reflexivity.
Qed.

Lemma sort_idempotent (l : list N) : sort (sort l) = sort l.
Proof. apply sort_of_sorted, sort_sorted. Qed.

Lemma public_input_witnesses_sorted_nodup (abi : Abi) (ws : list N) :
  public_input_witnesses_of abi = Ok ws ->
  NoDup ws /\ sort ws = ws.
Proof.
  unfold public_input_witnesses_of.
  destruct (public_parameter_witnesses_of abi) as [params| |]; simpl;
    intros H; inversion H; subst.
  split.
  - eapply Permutation_NoDup; [apply sort_perm | apply new_Set_NoDup].
  - apply sort_idempotent.
Qed.

(** ** The witness map *)

Lemma Map_set_fresh (m : WitnessMap) (key : N) (value : jsstring) :
  ~ In key (Map_keys m) -> Map_set m key value = m ++ [(key, value)].
Proof.
  induction m as [|[k v] m IH]; simpl; intros Hfresh.
  - reflexivity.
  - destruct (N.eqb_spec k key) as [->|_]; [tauto|].
    rewrite IH by tauto. reflexivity.
Qed.

Lemma Map_keys_app (m1 m2 : WitnessMap) :
  Map_keys (m1 ++ m2) = Map_keys m1 ++ Map_keys m2.
Proof. apply map_app. Qed.

Lemma Map_keys_combine (ws : list N) (values : list jsstring) :
  length ws = length values -> Map_keys (combine ws values) = ws.
Proof.
  revert values. induction ws as [|w ws IH]; intros [|v values] H; simpl in *;
    try reflexivity; try discriminate.
  rewrite IH by lia. reflexivity.
Qed.

Lemma Map_get_app_fresh (m1 m2 : WitnessMap) (key : N) :
  ~ In key (Map_keys m1) -> Map_get (m1 ++ m2) key = Map_get m2 key.
Proof.
  induction m1 as [|[k v] m1 IH]; simpl; intros Hfresh.
  - reflexivity.
  - destruct (N.eqb_spec k key) as [->|_]; [tauto|]. apply IH. tauto.
Qed.

Lemma skipn_nth_error {A : Type} (l : list A) :
  forall (i : nat) (x : A),
    nth_error l i = Some x -> skipn i l = x :: skipn (S i) l.
Proof.
  induction l as [|y l IH]; intros [|i] x H; simpl in *; try discriminate.
  - inversion H. reflexivity.
  - apply IH. exact H.
Qed.

(** With enough chunks, the [forEach] binds each witness, in order, to
    the hex string of the chunk of the same rank. *)
Lemma fill_public_inputs_combine (ws : list N) :
  forall (index : nat) (flattened : list Uint8Array) (m : WitnessMap),
    NoDup (Map_keys m ++ ws) ->
    (index + length ws <= length flattened)%nat ->
    fill_public_inputs ws index flattened m
    = Ok (m ++ combine ws (map uint8ArrayToHex
                             (firstn (length ws) (skipn index flattened)))).
Proof.
  induction ws as [|w ws IH]; intros index flattened m Hnd Hlen; simpl in *.
  - rewrite app_nil_r. reflexivity.
  - destruct (nth_error flattened index) as [buffer|] eqn:Hnth.
    + rewrite Map_set_fresh.
      2:{ apply NoDup_remove_2 in Hnd. rewrite in_app_iff in Hnd. tauto. }
      rewrite IH.
      * rewrite <- app_assoc, (skipn_nth_error _ _ _ Hnth). reflexivity.
      * rewrite Map_keys_app. simpl. rewrite <- app_assoc. exact Hnd.
      * lia.
    + apply nth_error_None in Hnth. lia.
Qed.

(** Without enough chunks, [uint8ArrayToHex(undefined)] throws. *)
Lemma fill_public_inputs_short (ws : list N) :
  forall (index : nat) (flattened : list Uint8Array) (m : WitnessMap),
    (index <= length flattened < index + length ws)%nat ->
    fill_public_inputs ws index flattened m = Throw TypeError.
Proof.
  induction ws as [|w ws IH]; intros index flattened m Hlen; simpl in *.
  - lia.
  - destruct (nth_error flattened index) as [buffer|] eqn:Hnth; [|reflexivity].
    assert (Hin : (index < length flattened)%nat)
      by (apply nth_error_Some; congruence).
    apply IH. lia.
Qed.

(** ** [generateProof]: splitting the native buffer *)

Lemma splitProof_app (abi : Abi) (region tail : Uint8Array) :
  length tail = 2144%nat ->
  splitProof abi (region ++ tail)
  = (let! ws := public_input_witnesses_of abi in
     let! inputs := fill_public_inputs ws 0 (chunks region) [] in
     Ok {| proof := tail; publicInputs := inputs |})%res.
Proof.
  intros Htail. unfold splitProof, numBytesInProofWithoutPublicInputs.
  replace 2144 with (Z.of_nat (length tail)) by lia.
  rewrite u8_slice_prefix, u8_slice_from_suffix, flattened_public_inputs_chunks.
  reflexivity.
Qed.

(** The split of a buffer of at least 2144 bytes: the proof is the last
    2144 bytes, and the public inputs are built from the bytes before
    them alone, cut into consecutive chunks of 32 bytes. *)
Lemma splitProof_proof_is_tail (abi : Abi) (proofWithPublicInputs : Uint8Array) :
  (2144 <= length proofWithPublicInputs)%nat ->
  let splitIndex := (length proofWithPublicInputs - 2144)%nat in
  let region := firstn splitIndex proofWithPublicInputs in
  let tail := skipn splitIndex proofWithPublicInputs in
  length tail = 2144%nat
  /\ region ++ tail = proofWithPublicInputs
  /\ flattened_public_inputs region = Ok (chunks region)
  /\ splitProof abi proofWithPublicInputs
     = (let! ws := public_input_witnesses_of abi in
        let! inputs := fill_public_inputs ws 0 (chunks region) [] in
        Ok {| proof := tail; publicInputs := inputs |})%res
  /\ (forall other_tail : Uint8Array,
         length other_tail = 2144%nat ->
         splitProof abi (region ++ other_tail)
         = (let! pd := splitProof abi proofWithPublicInputs in
            Ok {| proof := other_tail; publicInputs := publicInputs pd |})%res)
  /\ (forall ws : list N,
         public_input_witnesses_of abi = Ok ws ->
         splitProof abi proofWithPublicInputs
         = if (length ws <=? chunk_count region)%nat
           then Ok {| proof := tail;
                      publicInputs :=
                        combine ws (map uint8ArrayToHex
                                      (firstn (length ws) (chunks region))) |}
           else Throw TypeError).
Proof.
  intros Hlen splitIndex region tail.
  assert (Htail : length tail = 2144%nat)
    by (unfold tail, splitIndex; rewrite length_skipn; lia).
  assert (Happ : region ++ tail = proofWithPublicInputs)
    by apply firstn_skipn.
  assert (Hsplit := splitProof_app abi region tail Htail).
  rewrite Happ in Hsplit.
  split; [exact Htail|]. split; [exact Happ|].
  split; [apply flattened_public_inputs_chunks|].
  split; [exact Hsplit|]. split.
  - intros other_tail Hother. rewrite Hsplit, splitProof_app by exact Hother.
    destruct (public_input_witnesses_of abi) as [ws| |]; simpl; try reflexivity.
    destruct (fill_public_inputs ws 0 (chunks region) []); reflexivity.
  - intros ws Hws. rewrite Hsplit, Hws. cbn [rbind].
    assert (Hcount : length (chunks region) = chunk_count region)
      by (unfold chunks; rewrite length_map, length_seq; reflexivity).
    destruct (Nat.leb_spec (length ws) (chunk_count region)) as [Hle|Hgt].
    + rewrite fill_public_inputs_combine.
      * reflexivity.
      * simpl. apply (public_input_witnesses_sorted_nodup abi ws Hws).
      * lia.
    + rewrite fill_public_inputs_short by lia. reflexivity.
Qed.

Lemma splitProof_proof_is_tail_witness :
  splitProof sample_abi sample_buffer
  = Ok {| proof := sample_proof;
          publicInputs :=
            [ (1%N, uint8ArrayToHex sample_field);
              (2%N, uint8ArrayToHex (repeat x00 31 ++ [x07]));
              (4%N, uint8ArrayToHex (repeat xff 32)) ] |}.
Proof.
  assert (H : (2144 <= length sample_buffer)%nat)
    by (apply Nat.leb_le; vm_compute; reflexivity).
  destruct (splitProof_proof_is_tail sample_abi sample_buffer H)
    as (_ & _ & _ & _ & _ & Hws).
  rewrite (Hws [1; 2; 4]%N) by reflexivity.
  vm_compute. reflexivity.
Defined.

(** A buffer shorter than 2144 bytes, which the native library does not
    return, is cut elsewhere: [slice] counts a negative index from the
    end. *)
Example splitProof_short_buffer :
  splitProof {| parameters := []; param_witnesses := []; return_witnesses := [] |}
    (repeat x01 1500)
  = Ok {| proof := repeat x01 644; publicInputs := [] |}.
Proof. vm_compute. reflexivity. Qed.

(** ** Round trip *)

Lemma rmap_get_combine (ws : list N) :
  forall (cs : list Uint8Array) (before : WitnessMap),
    NoDup (Map_keys before ++ ws) ->
    length ws = length cs ->
    Forall (fun c => length c = 32%nat) cs ->
    rmap (fun index =>
            hexToUint8Array_of
              (Map_get (before ++ combine ws (map uint8ArrayToHex cs)) index)) ws
    = Ok cs.
Proof.
  induction ws as [|w ws IH]; intros [|c cs] before Hnd Hlen Hcs;
    try discriminate; [reflexivity|].
  inversion Hcs as [|? ? Hc Hcs']; subst.
  cbn [rmap map combine].
  rewrite Map_get_app_fresh.
  2:{ apply NoDup_remove_2 in Hnd. rewrite in_app_iff in Hnd. tauto. }
  cbn [Map_get]. rewrite N.eqb_refl. cbn [hexToUint8Array_of].
  rewrite hex_string_read_back by exact Hc. cbn [rbind].
  replace (before ++ (w, uint8ArrayToHex c) :: combine ws (map uint8ArrayToHex cs))
    with ((before ++ [(w, uint8ArrayToHex c)]) ++ combine ws (map uint8ArrayToHex cs))
    by (rewrite <- app_assoc; reflexivity).
  rewrite IH.
  - reflexivity.
  - rewrite Map_keys_app. simpl. rewrite <- app_assoc. exact Hnd.
  - simpl in Hlen. lia.
  - exact Hcs'.
Qed.

(** Splitting a buffer that holds one chunk per public witness and then
    reassembling it gives the buffer back. *)
Lemma reconstruct_after_split (abi : Abi) (ws : list N) (x : Uint8Array) :
  public_input_witnesses_of abi = Ok ws ->
  length x = (32 * length ws + 2144)%nat ->
  exists pd,
    splitProof abi x = Ok pd
    /\ proof pd = skipn (32 * length ws) x
    /\ Map_keys (publicInputs pd) = ws
    /\ reconstructProofWithPublicInputs pd = Ok x.
Proof.
  intros Hws Hlen.
  destruct (public_input_witnesses_sorted_nodup abi ws Hws) as [Hnd Hsorted].
  set (region := firstn (32 * length ws) x).
  set (tail := skipn (32 * length ws) x).
  assert (Hx : x = region ++ tail) by (symmetry; apply firstn_skipn).
  assert (Htail : length tail = 2144%nat)
    by (unfold tail; rewrite length_skipn; lia).
  assert (Hregion : length region = (32 * length ws)%nat)
    by (unfold region; rewrite length_firstn; lia).
  destruct (chunks_exact (length ws) region Hregion) as (Hcount & Hall & Hconcat).
  assert (Hkeys : Map_keys (combine ws (map uint8ArrayToHex (chunks region))) = ws)
    by (apply Map_keys_combine; rewrite length_map; lia).
  exists {| proof := tail;
            publicInputs := combine ws (map uint8ArrayToHex (chunks region)) |}.
  split; [|split; [reflexivity|split; [exact Hkeys|]]].
  - rewrite Hx, splitProof_app, Hws by exact Htail. cbn [rbind].
    rewrite fill_public_inputs_combine; [|exact Hnd|simpl; lia].
    cbn [skipn app]. rewrite firstn_all2 by lia. reflexivity.
  - unfold reconstructProofWithPublicInputs. cbn [publicInputs proof].
    rewrite Hkeys, Hsorted.
    pose proof (rmap_get_combine ws (chunks region) []) as Hmap.
    cbn [app] in Hmap. rewrite Hmap; [|exact Hnd|lia|exact Hall].
    cbn [rbind]. rewrite flattenUint8Arrays_concat. cbn [rbind].
    rewrite Hconcat, <- Hx. reflexivity.
Qed.

(** ** The order of [sort] is a total order on witness indices *)

Lemma code_inj (a b : ascii) : code a = code b -> a = b.
Proof.
  unfold code. intros H.
  rewrite <- (ascii_N_embedding a), <- (ascii_N_embedding b), H. reflexivity.
Qed.

Lemma str_ltb_antisym (a : jsstring) :
  forall b, str_ltb a b = false -> str_ltb b a = false -> a = b.
Proof.
  induction a as [|x a IH]; intros [|y b] Hab Hba; simpl in *;
    try reflexivity; try discriminate.
  destruct (N.ltb_spec (code x) (code y)) as [Hxy|Hxy]; [discriminate|].
  destruct (N.ltb_spec (code y) (code x)) as [Hyx|Hyx]; [discriminate|].
  f_equal.
  - apply code_inj. lia.
  - apply IH; assumption.
Qed.

Lemma str_leb_trans (a : jsstring) :
  forall b c, str_ltb b a = false -> str_ltb c b = false -> str_ltb c a = false.
Proof.
  induction a as [|x a IH]; intros [|y b] [|z c] Hab Hbc; simpl in *;
    try reflexivity; try discriminate.
  destruct (N.ltb_spec (code y) (code x)) as [Hyx|Hyx]; [discriminate|].
  destruct (N.ltb_spec (code z) (code y)) as [Hzy|Hzy]; [discriminate|].
  destruct (N.ltb_spec (code z) (code x)) as [Hzx|Hzx]; [lia|].
  destruct (N.ltb_spec (code x) (code z)) as [Hxz|Hxz]; [reflexivity|].
  destruct (N.ltb_spec (code x) (code y)) as [Hxy|Hxy]; [lia|].
  destruct (N.ltb_spec (code y) (code z)) as [Hyz|Hyz]; [lia|].
  eapply IH; eassumption.
Qed.

Lemma N_toString_inj (m n : N) : N_toString m = N_toString n -> m = n.
Proof.
  unfold N_toString, str. intros H.
  apply (f_equal string_of_list_ascii) in H.
  rewrite !string_of_list_ascii_of_string in H.
  assert (Hnn : forall k, N.to_uint k <> Decimal.Nil).
  { intros [|p]; [discriminate | apply DecimalPos.Unsigned.to_uint_nonnil]. }
  apply (f_equal NilZero.uint_of_string) in H.
  rewrite !NilZero.usu in H by apply Hnn.
  apply DecimalN.Unsigned.to_uint_inj. congruence.
Qed.

Lemma not_after_trans (x y z : N) :
  not_after x y -> not_after y z -> not_after x z.
Proof. unfold not_after, sort_before. apply str_leb_trans. Qed.

Lemma not_after_antisym (x y : N) : not_after x y -> not_after y x -> x = y.
Proof.
  unfold not_after, sort_before. intros Hxy Hyx.
  apply N_toString_inj, str_ltb_antisym; assumption.
Qed.

Lemma sorted_permutation_unique (l1 : list N) :
  forall l2,
    Sorted not_after l1 -> Sorted not_after l2 -> Permutation l1 l2 -> l1 = l2.
Proof.
  induction l1 as [|x l1 IH]; intros l2 H1 H2 Hperm.
  - apply Permutation_nil in Hperm. congruence.
  - destruct l2 as [|y l2].
    { apply Permutation_sym, Permutation_nil in Hperm. discriminate. }
    assert (Htrans : Relations_1.Transitive not_after)
      by (intros a b c; apply not_after_trans).
    apply (Sorted_StronglySorted Htrans) in H1, H2.
    apply StronglySorted_inv in H1, H2.
    destruct H1 as [H1 Hx], H2 as [H2 Hy].
    assert (Heq : x = y).
    { assert (Hxin : In x (y :: l2))
        by (eapply Permutation_in; [exact Hperm | left; reflexivity]).
      assert (Hyin : In y (x :: l1))
        by (eapply Permutation_in;
            [apply Permutation_sym; exact Hperm | left; reflexivity]).
      destruct Hxin as [Hxy|Hxin]; [congruence|].
      destruct Hyin as [Hyx|Hyin]; [congruence|].
      rewrite Forall_forall in Hx, Hy.
      apply not_after_antisym; [apply Hx | apply Hy]; assumption. }
    subst y. f_equal. apply IH.
    + apply StronglySorted_Sorted. exact H1.
    + apply StronglySorted_Sorted. exact H2.
    + eapply Permutation_cons_inv. exact Hperm.
Qed.

(** [sort] depends only on the elements of the array, not on their
    order. *)
Lemma sort_permutation (l1 l2 : list N) :
  Permutation l1 l2 -> sort l1 = sort l2.
Proof.
  intros Hperm. apply sorted_permutation_unique; try apply sort_sorted.
  eapply perm_trans; [apply Permutation_sym, sort_perm|].
  eapply perm_trans; [exact Hperm | apply sort_perm].
Qed.

Lemma Map_get_present (m : WitnessMap) (key : N) :
  In key (Map_keys m) -> exists value, Map_get m key = Some value /\ In (key, value) m.
Proof.
  induction m as [|[k v] m IH]; simpl; intros Hin; [contradiction|].
  destruct (N.eqb_spec k key) as [->|Hne].
  - exists v. split; [reflexivity | left; reflexivity].
  - destruct Hin as [Heq|Hin]; [contradiction|].
    destruct (IH Hin) as (value & Hget & Hmem).
    exists value. split; [exact Hget | right; exact Hmem].
Qed.

Lemma Map_get_absent (m : WitnessMap) (key : N) :
  ~ In key (Map_keys m) -> Map_get m key = None.
Proof.
  induction m as [|[k v] m IH]; simpl; intros Hout; [reflexivity|].
  destruct (N.eqb_spec k key) as [->|Hne]; [tauto|]. apply IH. tauto.
Qed.

Lemma rmap_canonical (m : WitnessMap) (l : list N) :
  (forall k v, In (k, v) m -> canonical_value v) ->
  incl l (Map_keys m) ->
  exists cs,
    rmap (fun index => hexToUint8Array_of (Map_get m index)) l = Ok cs
    /\ Forall2 (fun k c => length c = 32%nat
                           /\ Map_get m k = Some (uint8ArrayToHex c)) l cs.
Proof.
  intros Hcanon. induction l as [|k l IH]; intros Hincl.
  - exists []. split; [reflexivity | constructor].
  - destruct IH as (cs & Hcs & Hall).
    { intros y Hy. apply Hincl. right. exact Hy. }
    destruct (Map_get_present m k) as (v & Hget & Hmem).
    { apply Hincl. left. reflexivity. }
    destruct (Hcanon k v Hmem) as (c & Hc & ->).
    exists (c :: cs). split.
    + cbn [rmap]. rewrite Hget. cbn [hexToUint8Array_of].
      rewrite hex_string_read_back by exact Hc. cbn [rbind].
      rewrite Hcs. reflexivity.
    + constructor; [split; assumption | exact Hall].
Qed.

Lemma chunks_concat (cs : list Uint8Array) :
  Forall (fun c => length c = 32%nat) cs ->
  chunks (concat cs) = cs /\ length (concat cs) = (32 * length cs)%nat.
Proof.
  induction 1 as [|c cs Hc _ [IH1 IH2]]; simpl.
  - split; reflexivity.
  - rewrite chunks_cons, IH1, length_app by exact Hc. split; [reflexivity | lia].
Qed.

Lemma Map_get_combine (m : WitnessMap) (ws : list N) (cs : list Uint8Array) :
  Forall2 (fun k c => length c = 32%nat
                      /\ Map_get m k = Some (uint8ArrayToHex c)) ws cs ->
  forall key, In key ws ->
              Map_get (combine ws (map uint8ArrayToHex cs)) key = Map_get m key.
Proof.
  induction 1 as [|w c ws cs [_ Hw] _ IH]; intros key Hin; simpl in *.
  - contradiction.
  - destruct (N.eqb_spec w key) as [->|Hne]; [symmetry; exact Hw|].
    apply IH. destruct Hin; [contradiction | assumption].
Qed.

(** Reassembling a witness map over the public witnesses of the circuit,
    with canonical values and a proof of 2144 bytes, and then splitting,
    gives the proof and the bindings back. *)
Lemma split_after_reconstruct (abi : Abi) (ws : list N) (inputs : WitnessMap)
  (p : Uint8Array) :
  public_input_witnesses_of abi = Ok ws ->
  Permutation (Map_keys inputs) ws ->
  (forall k v, In (k, v) inputs -> canonical_value v) ->
  length p = 2144%nat ->
  exists x pd,
    reconstructProofWithPublicInputs {| proof := p; publicInputs := inputs |} = Ok x
    /\ splitProof abi x = Ok pd
    /\ proof pd = p
    /\ Map_keys (publicInputs pd) = ws
    /\ forall key, Map_get (publicInputs pd) key = Map_get inputs key.
Proof.
  intros Hws Hperm Hcanon Hp.
  destruct (public_input_witnesses_sorted_nodup abi ws Hws) as [Hnd Hsorted].
  assert (Hkeys : sort (Map_keys inputs) = ws)
    by (rewrite (sort_permutation _ _ Hperm); exact Hsorted).
  destruct (rmap_canonical inputs ws Hcanon) as (cs & Hcs & Hall).
  { intros y Hy. eapply Permutation_in; [apply Permutation_sym; exact Hperm | exact Hy]. }
  assert (Hlen : length ws = length cs) by (eapply Forall2_length; exact Hall).
  assert (H32 : Forall (fun c => length c = 32%nat) cs).
  { clear -Hall. induction Hall as [|? ? ? ? [H _] _ IH]; constructor; assumption. }
  destruct (chunks_concat cs H32) as [Hchunks Hregion].
  assert (Hk : Map_keys (combine ws (map uint8ArrayToHex cs)) = ws)
    by (apply Map_keys_combine; rewrite length_map; exact Hlen).
  exists (concat cs ++ p).
  exists {| proof := p; publicInputs := combine ws (map uint8ArrayToHex cs) |}.
  split; [|split; [|split; [reflexivity|split; [exact Hk|]]]].
  - unfold reconstructProofWithPublicInputs. cbn [publicInputs proof].
    rewrite Hkeys, Hcs. cbn [rbind]. rewrite flattenUint8Arrays_concat. reflexivity.
  - rewrite splitProof_app, Hws by exact Hp. cbn [rbind]. rewrite Hchunks.
    rewrite fill_public_inputs_combine; [|exact Hnd|simpl; lia].
    cbn [skipn app]. rewrite firstn_all2 by lia. reflexivity.
  - intros key. cbn [publicInputs].
    destruct (in_dec N.eq_dec key ws) as [Hin|Hout].
    + apply (Map_get_combine inputs); assumption.
    + rewrite !Map_get_absent; [reflexivity | |].
      * intros Hin. apply Hout. eapply Permutation_in; eassumption.
      * rewrite Hk. exact Hout.
Qed.

(** C1, amended. For a circuit with public witnesses [ws]: a buffer made
    of one chunk of 32 bytes per witness and 2144 bytes of proof is split
    and reassembled into itself; and a witness map over exactly these
    witnesses, with canonical values, and a proof of 2144 bytes are
    reassembled and split into the same proof and the same bindings. *)
Theorem proof_buffer_round_trip (abi : Abi) (ws : list N) :
  public_input_witnesses_of abi = Ok ws ->
  (forall x : Uint8Array,
      length x = (32 * length ws + 2144)%nat ->
      exists pd,
        splitProof abi x = Ok pd
        /\ reconstructProofWithPublicInputs pd = Ok x)
  /\ (forall (inputs : WitnessMap) (p : Uint8Array),
         Permutation (Map_keys inputs) ws ->
         (forall k v, In (k, v) inputs -> canonical_value v) ->
         length p = 2144%nat ->
         exists x pd,
           reconstructProofWithPublicInputs {| proof := p; publicInputs := inputs |}
           = Ok x
           /\ splitProof abi x = Ok pd
           /\ proof pd = p
           /\ forall key, Map_get (publicInputs pd) key = Map_get inputs key).
Proof.
  intros Hws. split.
  - intros x Hlen.
    destruct (reconstruct_after_split abi ws x Hws Hlen) as (pd & H1 & _ & _ & H2).
    exists pd. split; assumption.
  - intros inputs p Hperm Hcanon Hp.
    destruct (split_after_reconstruct abi ws inputs p Hws Hperm Hcanon Hp)
      as (x & pd & H1 & H2 & H3 & _ & H4).
    exists x, pd. repeat split; assumption.
Qed.

Lemma sample_inputs_canonical (k : N) (v : jsstring) :
  In (k, v) sample_inputs -> canonical_value v.
Proof.
  intros [H|[H|[H|[]]]]; inversion H; subst; eexists; (split; [|reflexivity]);
    reflexivity.
Qed.

Lemma proof_buffer_round_trip_witness :
  (exists pd,
      splitProof sample_abi sample_buffer = Ok pd
      /\ reconstructProofWithPublicInputs pd = Ok sample_buffer)
  /\ (exists x pd,
         reconstructProofWithPublicInputs
           {| proof := sample_proof; publicInputs := sample_inputs |} = Ok x
         /\ splitProof sample_abi x = Ok pd
         /\ proof pd = sample_proof
         /\ forall key, Map_get (publicInputs pd) key = Map_get sample_inputs key).
Proof.
  destruct (proof_buffer_round_trip sample_abi [1; 2; 4]%N) as [Hsplit Hjoin];
    [reflexivity|].
  split.
  - apply Hsplit. vm_compute. reflexivity.
  - apply Hjoin.
    + apply Permutation_cons_app with (l1 := [1; 2]%N) (l2 := []). reflexivity.
    + exact sample_inputs_canonical.
    + apply repeat_length.
Defined.

(** C1 as the specification words it does not hold for every witness map
    and every proof: a proof one byte longer than 2144 bytes loses its
    first byte to the public-input region, and a value written with fewer
    digits comes back padded. *)
Lemma round_trip_not_for_every_input :
  (reconstructProofWithPublicInputs
     {| proof := x01 :: sample_proof;
        publicInputs := [(4%N, uint8ArrayToHex sample_field)] |}
   = Ok (sample_field ++ x01 :: sample_proof)
   /\ splitProof
        {| parameters := []; param_witnesses := []; return_witnesses := [4%N] |}
        (sample_field ++ x01 :: sample_proof)
      = Ok {| proof := sample_proof;
              publicInputs := [(4%N, uint8ArrayToHex sample_field)] |}
   /\ sample_proof <> x01 :: sample_proof)
  /\ (reconstructProofWithPublicInputs
        {| proof := sample_proof; publicInputs := [(4%N, str "0x7")] |}
      = Ok (repeat x00 31 ++ [x07] ++ sample_proof)
      /\ splitProof
           {| parameters := []; param_witnesses := []; return_witnesses := [4%N] |}
           (repeat x00 31 ++ [x07] ++ sample_proof)
         = Ok {| proof := sample_proof;
                 publicInputs :=
                   [(4%N, uint8ArrayToHex (repeat x00 31 ++ [x07]))] |}
      /\ uint8ArrayToHex (repeat x00 31 ++ [x07]) <> str "0x7").
Proof.
  split.
  - split; [vm_compute; reflexivity|]. split; [vm_compute; reflexivity|].
    intros H. apply (f_equal (@length byte)) in H.
    vm_compute in H. discriminate H.
  - split; [vm_compute; reflexivity|]. split; [vm_compute; reflexivity|].
    vm_compute. intros H. discriminate H.
Qed.

(** ** The order of the public inputs *)

(** Where every index has one decimal digit, the order of the strings is
    the order of the numbers. *)
Lemma sort_before_one_digit (x y : N) :
  (x < 10)%N -> (y < 10)%N -> sort_before x y = (x <? y)%N.
Proof.
  intros Hx Hy.
  assert (Hx16 : (x < 16)%N) by lia. assert (Hy16 : (y < 16)%N) by lia.
  each_digit x Hx16; try lia; each_digit y Hy16; try lia; reflexivity.
Qed.

(** C2, on the code. The witness indices are deduplicated, but [sort] is
    called without a comparator and orders them as strings: witness 10
    comes before witness 2, in [generateProof], where it takes the first
    chunk of the buffer, and in [reconstructProofWithPublicInputs], where
    its value is written first. *)
Theorem public_input_witnesses_in_string_order :
  public_input_witnesses_of abi_2_10 = Ok [10; 2]%N
  /\ public_input_witnesses_of abi_1_to_11
     = Ok [1; 10; 11; 2; 3; 4; 5; 6; 7; 8; 9]%N
  /\ splitProof abi_2_10 (repeat x00 31 ++ [x02] ++ repeat x00 31 ++ [x0a]
                            ++ sample_proof)
     = Ok {| proof := sample_proof;
             publicInputs :=
               [ (10%N, uint8ArrayToHex (repeat x00 31 ++ [x02]));
                 (2%N, uint8ArrayToHex (repeat x00 31 ++ [x0a])) ] |}
  /\ reconstructProofWithPublicInputs
       {| proof := sample_proof;
          publicInputs := [ (2%N, str "0x02"); (10%N, str "0x0a") ] |}
     = Ok (repeat x00 31 ++ [x0a] ++ repeat x00 31 ++ [x02] ++ sample_proof).
Proof. repeat split; vm_compute; reflexivity. Qed.

(** ** No loop of the model runs out of iterations *)

Lemma rmap_total {A B : Type} (f : A -> outcome B) (l : list A) :
  (forall x, f x <> OutOfFuel) -> rmap f l <> OutOfFuel.
Proof.
  intros Hf. induction l as [|x l IH]; simpl; [discriminate|].
  specialize (Hf x). destruct (f x); cbn; try congruence.
  destruct (rmap f l); cbn; congruence.
Qed.

Lemma hexToUint8Array_total (hex : jsstring) : hexToUint8Array hex <> OutOfFuel.
Proof.
  destruct (StringToBigInt hex) as [z|] eqn:Hz.
  - rewrite (hexToUint8Array_pairs hex z); [discriminate|].
    unfold BigInt. rewrite Hz. reflexivity.
  - rewrite hexToUint8Array_throws by exact Hz. discriminate.
Qed.

Lemma fill_public_inputs_total (ws : list N) :
  forall index flattened m, fill_public_inputs ws index flattened m <> OutOfFuel.
Proof.
  induction ws as [|x ws IH]; intros index flattened m; simpl; [discriminate|].
  destruct (nth_error flattened index); [apply IH | discriminate].
Qed.

Lemma splitProof_total (abi : Abi) (x : Uint8Array) : splitProof abi x <> OutOfFuel.
Proof.
  unfold splitProof. rewrite flattened_public_inputs_chunks. cbn [rbind].
  unfold public_input_witnesses_of, public_parameter_witnesses_of.
  match goal with |- context [rmap ?f ?l] =>
    pose proof (rmap_total f l) as Hr; destruct (rmap f l) as [per_param| |] end;
    cbn [rbind]; try discriminate.
  - match goal with |- context [fill_public_inputs ?a ?b ?c ?d] =>
      pose proof (fill_public_inputs_total a b c d) as Hf;
      destruct (fill_public_inputs a b c d) end; cbn; congruence.
  - exfalso. apply Hr; [|reflexivity].
    intros param. destruct (object_get _ _); discriminate.
Qed.

Lemma reconstructProofWithPublicInputs_total (proofData : ProofData) :
  reconstructProofWithPublicInputs proofData <> OutOfFuel.
Proof.
  unfold reconstructProofWithPublicInputs.
  match goal with |- context [rmap ?f ?l] =>
    pose proof (rmap_total f l) as Hr; destruct (rmap f l) as [cs| |] end;
    cbn [rbind]; try discriminate.
  - rewrite flattenUint8Arrays_concat. discriminate.
  - exfalso. apply Hr; [|reflexivity].
    intros index. destruct (Map_get _ index); cbn; [apply hexToUint8Array_total|].
    discriminate.
Qed.

(** ** The lifecycle of the backend *)

Section Lifecycle.

Variables Api Composer Fr World : Type.
Variable Fr_toString : Fr -> jsstring.
Variable h : Handler Api Composer Fr World.

Abbreviation Backend := (BarretenbergBackend Api Composer).

#[local] Opaque splitProof reconstructProofWithPublicInputs.

Ltac answer :=
  match goal with
  | |- context [h ?R ?c ?w] =>
      let w' := fresh "w" in
      let v := fresh "v" in
      destruct (h R c w) as [w' [v|]]
  | |- context [splitProof ?a ?b] => destruct (splitProof a b)
  | |- context [reconstructProofWithPublicInputs ?p] =>
      destruct (reconstructProofWithPublicInputs p)
  | v : (_ * _)%type |- _ => destruct v
  end.

Ltac run_through := repeat (cbn; try answer).

Lemma instantiate_when_set (this : Backend) (w : World) (a : Api) :
  api this = Some a ->
  run h instantiate this w
  = {| calls := []; final := this; world := w; ending := Completed (Ok tt) |}.
Proof. intros Ha. cbn. rewrite Ha. reflexivity. Qed.

Lemma instantiate_sets_api (this : Backend) (w : World) :
  ending (run h instantiate this w) = Completed (Ok tt) ->
  exists a, api (final (run h instantiate this w)) = Some a.
Proof.
  destruct this as [[a|] c b circuit o].
  - intros _. exists a. reflexivity.
  - run_through; intros H; try discriminate H; eexists; reflexivity.
Qed.

Lemma instantiate_calls (this : Backend) (w : World) :
  api this = None ->
  ending (run h instantiate this w) = Completed (Ok tt) ->
  map name_of (calls (run h instantiate this w))
  = [ import_bb_js; Barretenberg_new; acirGetCircuitSizes; Crs_new;
      commonInitSlabAllocator; srsInitSrs; acirNewAcirComposer;
      acirInitProvingKey ].
Proof.
  destruct this as [[a|] c b circuit o]; cbn [api]; intros Ha; [discriminate Ha|].
  run_through; intros H; try discriminate H; reflexivity.
Qed.

(** C5. When a call of [instantiate] has completed, the handle is set;
    a second call makes no native call at all and leaves the backend
    and the native side as they were; and the two calls in sequence
    make, when the backend started uninstantiated, each set-up call
    exactly once. *)
Theorem instantiate_idempotent (this : Backend) (w : World) :
  ending (run h instantiate this w) = Completed (Ok tt) ->
  let first := run h instantiate this w in
  api (final first) <> None
  /\ run h instantiate (final first) (world first)
     = {| calls := []; final := final first; world := world first;
          ending := Completed (Ok tt) |}
  /\ then_run h first instantiate = first
  /\ (api this = None ->
      forall call : CallName,
        count_occ CallName_eq_dec
          (map name_of (calls (then_run h first instantiate))) call
        = if in_dec CallName_eq_dec call
               [ import_bb_js; Barretenberg_new; acirGetCircuitSizes; Crs_new;
                 commonInitSlabAllocator; srsInitSrs; acirNewAcirComposer;
                 acirInitProvingKey ]
          then 1%nat else 0%nat).
Proof.
  intros Hdone first.
  destruct (instantiate_sets_api this w Hdone) as (a & Ha). fold first in Ha.
  assert (Hsecond := instantiate_when_set (final first) (world first) a Ha).
  assert (Hboth : then_run h first instantiate = first).
  { fold first in Hdone. unfold then_run. rewrite Hdone, Hsecond.
    cbn [calls final world ending]. rewrite app_nil_r, <- Hdone.
    clearbody first. destruct first. reflexivity. }
  split; [congruence|]. split; [exact Hsecond|]. split; [exact Hboth|].
  intros Hunset call. rewrite Hboth. unfold first.
  rewrite (instantiate_calls this w Hunset Hdone).
  destruct call; reflexivity.
Qed.

(** C6. On a backend whose handle was never set, [destroy] returns
    without an error, makes no native call, and leaves the backend and
    the native side as they were. *)
Theorem destroy_uninstantiated (this : Backend) (w : World) :
  api this = None ->
  run h destroy this w
  = {| calls := []; final := this; world := w; ending := Completed (Ok tt) |}.
Proof. intros Ha. cbn. rewrite Ha. reflexivity. Qed.

Lemma destroy_when_set (this : Backend) (w : World) (a : Api) :
  api this = Some a ->
  calls (run h destroy this w) = [any_call (ApiDestroy a)]
  /\ final (run h destroy this w) = this.
Proof.
  intros Ha. cbn. rewrite Ha. cbn.
  destruct (h unit (ApiDestroy a) w) as [w' [v|]]; split; reflexivity.
Qed.

Lemma perform_keeps_api (op : Operation) (this : Backend) (w : World) (a : Api) :
  api this = Some a ->
  api (final (run h (perform Fr_toString op) this w)) = Some a.
Proof.
  destruct this as [a' c b circuit o]. cbn [api]. intros ->.
  destruct op; run_through; reflexivity.
Qed.

Lemma run_all_keeps_api (ops : list Operation) :
  forall (this : Backend) (w : World) (a : Api),
    api this = Some a ->
    api (final (run_all Fr_toString h ops this w)) = Some a.
Proof.
  induction ops as [|op ops IH]; intros this w a Ha; cbn.
  - exact Ha.
  - apply IH, perform_keeps_api. exact Ha.
Qed.

(** C10. Once the handle is set, it is still set, and the same, after
    any sequence of method calls, [destroy] among them, whether they
    complete or throw. So [destroy] calls the native [destroy] each
    time it is called, and [instantiate] after [destroy] makes no
    native call. *)
Theorem api_stays_set (this : Backend) (w : World) (a : Api) :
  api this = Some a ->
  (forall ops : list Operation,
      api (final (run_all Fr_toString h ops this w)) = Some a)
  /\ (let destroyed := run h destroy this w in
      api (final destroyed) = Some a
      /\ calls destroyed = [any_call (ApiDestroy a)]
      /\ calls (run h destroy (final destroyed) (world destroyed))
         = [any_call (ApiDestroy a)]
      /\ run h instantiate (final destroyed) (world destroyed)
         = {| calls := []; final := final destroyed; world := world destroyed;
              ending := Completed (Ok tt) |}).
Proof.
  intros Ha. split.
  - intros ops. apply run_all_keeps_api. exact Ha.
  - intros destroyed.
    destruct (destroy_when_set this w a Ha) as [Hcalls Hfinal].
    fold destroyed in Hcalls, Hfinal.
    assert (Ha' : api (final destroyed) = Some a) by (rewrite Hfinal; exact Ha).
    split; [exact Ha'|]. split; [exact Hcalls|]. split.
    + apply (destroy_when_set (final destroyed) (world destroyed) a Ha').
    + apply instantiate_when_set with a. exact Ha'.
Qed.

(** [generateProof] on an instantiated backend: what it returns is the
    split of the buffer the native call resolved to. *)
Lemma generateProof_returns_split (this : Backend) (w w1 w2 : World) (a : Api)
  (compressedWitness witness proofWithPublicInputs : Uint8Array) (flag : bool) :
  api this = Some a ->
  h _ (Gunzip compressedWitness) w = (w1, Some witness) ->
  h _ (AcirCreateProof a (acirComposer this) (acirUncompressedBytecode this)
         witness flag) w1
  = (w2, Some proofWithPublicInputs) ->
  ending (run h (generateProof compressedWitness flag) this w)
  = Completed (splitProof (abi (acirCircuit this)) proofWithPublicInputs)
  /\ final (run h (generateProof compressedWitness flag) this w) = this.
Proof.
  destruct this as [a' c b circuit o]. cbn [api acirComposer
    acirUncompressedBytecode acirCircuit]. intros -> Hgunzip Hproof.
  cbn. rewrite Hgunzip. cbn. rewrite Hproof. cbn. split; reflexivity.
Qed.

End Lifecycle.

(** The constructor leaves the handle unset. *)
Lemma new_BarretenbergBackend_uninstantiated (Api Composer : Type)
  (acirToUint8Array : jsstring -> outcome Uint8Array)
  (circuit : CompiledCircuit) (opts : option BackendOptions)
  (this : BarretenbergBackend Api Composer) :
  new_BarretenbergBackend Api Composer acirToUint8Array circuit opts = Ok this ->
  api this = None.
Proof.
  unfold new_BarretenbergBackend.
  destruct (acirToUint8Array (bytecode circuit)); cbn; intros H;
    inversion H; reflexivity.
Qed.

Example sample_backend_constructed :
  new_BarretenbergBackend nat nat (fun _ => Ok [x01; x02]) sample_circuit None
  = Ok sample_backend.
Proof. reflexivity. Qed.

Lemma instantiate_idempotent_witness :
  api (final (run sample_handler instantiate sample_backend 0%nat)) <> None
  /\ then_run sample_handler (run sample_handler instantiate sample_backend 0%nat)
       instantiate
     = run sample_handler instantiate sample_backend 0%nat
  /\ map name_of (calls (run sample_handler instantiate sample_backend 0%nat))
     = [ import_bb_js; Barretenberg_new; acirGetCircuitSizes; Crs_new;
         commonInitSlabAllocator; srsInitSrs; acirNewAcirComposer;
         acirInitProvingKey ].
Proof.
  destruct (instantiate_idempotent nat nat unit nat sample_handler sample_backend 0%nat)
    as (H1 & _ & H3 & _).
  - reflexivity.
  - split; [exact H1|]. split; [exact H3 | reflexivity].
Defined.

Lemma destroy_uninstantiated_witness :
  run sample_handler destroy sample_backend 0%nat
  = {| calls := []; final := sample_backend; world := 0%nat;
       ending := Completed (Ok tt) |}.
Proof.
  apply (destroy_uninstantiated nat nat unit nat sample_handler sample_backend 0%nat).
  reflexivity.
Defined.

Lemma api_stays_set_witness :
  api (final (run_all (fun _ : unit => str "0x00") sample_handler
                [ op_destroy; op_generateFinalProof [x01]; op_destroy;
                  op_instantiate ]
                (final (run sample_handler instantiate sample_backend 0%nat))
                8%nat))
  = Some 7%nat.
Proof.
  destruct (api_stays_set nat nat unit nat (fun _ : unit => str "0x00") sample_handler
              (final (run sample_handler instantiate sample_backend 0%nat))
              8%nat 7%nat) as [Hall _].
  - reflexivity.
  - apply Hall.
Defined.

(** The calls of that sequence: each [destroy] reaches the native side,
    and the [instantiate] after them does nothing. *)
Example destroy_twice_calls :
  map name_of
    (calls (run_all (fun _ : unit => str "0x00") sample_handler
              [ op_destroy; op_destroy; op_instantiate ]
              (final (run sample_handler instantiate sample_backend 0%nat))
              8%nat))
  = [api_destroy; api_destroy].
Proof. reflexivity. Qed.


(** * Further properties of the codec *)

(** ** Hex strings of buffers of any length *)

Lemma big_endian_of_nibbles (v : Uint8Array) :
  digits_number (flat_map nibbles v) = big_endian v.
Proof.
  rewrite <- (pair_bytes_hex_of_bytes v) at 2.
  symmetry. apply big_endian_pair_bytes_even.
  - apply flat_map_nibbles_below_16.
  - rewrite length_flat_map_nibbles. exists (length v). lia.
Qed.

Lemma BigInt_of_hex_string (v : Uint8Array) :
  v <> [] -> BigInt (uint8ArrayToHex v) = Ok (Z.of_N (big_endian v)).
Proof.
  intros Hne. rewrite uint8ArrayToHex_digits, <- big_endian_of_nibbles.
  apply BigInt_hex_digits; [apply flat_map_nibbles_below_16|].
  intros Hnil. apply (f_equal (@length N)) in Hnil.
  rewrite length_flat_map_nibbles in Hnil.
  destruct v; [contradiction | discriminate Hnil].
Qed.

(** X1. The string [uint8ArrayToHex] writes has two code units per byte
    after the prefix, and [BigInt] reads it as the big-endian number of
    the buffer; for the empty buffer the string is the bare prefix, which
    [BigInt] rejects. *)
Theorem uint8ArrayToHex_is_big_endian_number (v : Uint8Array) :
  length (uint8ArrayToHex v) = (2 + 2 * length v)%nat
  /\ BigInt (uint8ArrayToHex v)
     = match v with
       | [] => Throw SyntaxError
       | _ :: _ => Ok (Z.of_N (big_endian v))
       end.
Proof.
  split.
  - rewrite uint8ArrayToHex_digits, length_app, length_map,
      length_flat_map_nibbles. reflexivity.
  - destruct v as [|b v]; [reflexivity|].
    apply BigInt_of_hex_string. discriminate.
Qed.

Lemma big_endian_leading_zeros (k : nat) (v : Uint8Array) :
  big_endian (repeat x00 k ++ v) = big_endian v.
Proof.
  unfold big_endian. rewrite fold_left_app. f_equal.
  induction k as [|k IH]; [reflexivity | exact IH].
Qed.

Lemma hex_string_read_back_padded (v : Uint8Array) :
  v <> [] ->
  (length v <= 32)%nat ->
  hexToUint8Array (uint8ArrayToHex v) = Ok (repeat x00 (32 - length v) ++ v).
Proof.
  intros Hne Hlen.
  set (padded := repeat x00 (32 - length v) ++ v).
  assert (Hpadded : length padded = 32%nat)
    by (unfold padded; rewrite length_app, repeat_length; lia).
  transitivity (hexToUint8Array (uint8ArrayToHex padded));
    [|apply hex_string_read_back; exact Hpadded].
  rewrite (hexToUint8Array_pairs _ _ (BigInt_of_hex_string v Hne)).
  rewrite (hexToUint8Array_pairs (uint8ArrayToHex padded) (Z.of_N (big_endian v))).
  - reflexivity.
  - rewrite BigInt_of_hex_string.
    + unfold padded. rewrite big_endian_leading_zeros. reflexivity.
    + intros Hnil. rewrite Hnil in Hpadded. discriminate Hpadded.
Qed.

(** X2. A buffer of 1 to 32 bytes written by [uint8ArrayToHex] and read
    back by [hexToUint8Array] comes back with zero bytes in front, up to
    32 bytes; it comes back unchanged exactly when it has 32 bytes, so a
    short last chunk of the public inputs does not survive the round
    trip. *)
Theorem hexToUint8Array_pads_short_buffer (v : Uint8Array) :
  v <> [] ->
  (length v <= 32)%nat ->
  hexToUint8Array (uint8ArrayToHex v) = Ok (repeat x00 (32 - length v) ++ v)
  /\ (hexToUint8Array (uint8ArrayToHex v) = Ok v <-> length v = 32%nat).
Proof.
  intros Hne Hlen.
  pose proof (hex_string_read_back_padded v Hne Hlen) as Hpad.
  split; [exact Hpad|]. split.
  - intros Hsame. rewrite Hpad in Hsame.
    apply (f_equal (fun o => match o with
                             | Ok bytes => length bytes
                             | _ => 0%nat
                             end)) in Hsame.
    cbn beta iota in Hsame.
    rewrite length_app, repeat_length in Hsame. lia.
  - intros H32. apply hex_string_read_back. exact H32.
Qed.

Lemma hexToUint8Array_pads_short_buffer_witness :
  hexToUint8Array (uint8ArrayToHex [x00; x12]) = Ok (repeat x00 30 ++ [x00; x12])
  /\ (hexToUint8Array (uint8ArrayToHex [x00; x12]) = Ok [x00; x12]
      <-> length [x00; x12] = 32%nat).
Proof.
  apply (hexToUint8Array_pads_short_buffer [x00; x12]).
  - discriminate.
  - simpl. lia.
Defined.

(** X3. Different buffers have different hex strings. *)
Theorem uint8ArrayToHex_injective (v1 v2 : Uint8Array) :
  v1 <> v2 -> uint8ArrayToHex v1 <> uint8ArrayToHex v2.
Proof.
  intros Hne Heq. apply Hne.
  rewrite !uint8ArrayToHex_digits in Heq. apply app_inv_head in Heq.
  apply (f_equal pair_bytes) in Heq.
  rewrite !pair_bytes_hex_of_bytes in Heq. exact Heq.
Qed.

Lemma uint8ArrayToHex_injective_witness :
  uint8ArrayToHex [x00; x01] <> uint8ArrayToHex [x01].
Proof.
  apply (uint8ArrayToHex_injective [x00; x01] [x01]). discriminate.
Defined.

(** ** What [hexToUint8Array] returns on any string *)

Lemma length_sanitise (z : Z) :
  length (sanitise z) = Nat.max 64 (length (BigInt_toString16 z)).
Proof.
  unfold sanitise, padStart. rewrite length_app, repeat_length. lia.
Qed.

(** X4. The only error of [hexToUint8Array] is the [SyntaxError] of
    [BigInt], raised exactly when [BigInt] rejects the string. On every
    other string, a negative number included, it returns an array, of
    half as many bytes as the value has digits with its sign, and never
    of fewer than 32. *)
Theorem hexToUint8Array_error_or_32_bytes (hex : jsstring) :
  match StringToBigInt hex with
  | None => hexToUint8Array hex = Throw SyntaxError
  | Some z =>
      exists bytes,
        hexToUint8Array hex = Ok bytes
        /\ length bytes = Nat.div2 (Nat.max 64 (length (BigInt_toString16 z)))
        /\ (32 <= length bytes)%nat
  end.
Proof.
  destruct (StringToBigInt hex) as [z|] eqn:Hz.
  - exists (pair_bytes (sanitise z)).
    assert (Hlen : length (pair_bytes (sanitise z))
                   = Nat.div2 (Nat.max 64 (length (BigInt_toString16 z))))
      by (rewrite length_pair_bytes, length_sanitise; reflexivity).
    split; [|split; [exact Hlen|]].
    + apply hexToUint8Array_pairs. unfold BigInt. rewrite Hz. reflexivity.
    + rewrite Hlen, Nat.div2_div.
      apply (Nat.Div0.div_le_mono 64 _ 2). lia.
  - apply hexToUint8Array_throws. exact Hz.
Qed.

Lemma hexToUint8Array_in_range (hex : jsstring) (z : Z) :
  BigInt hex = Ok z ->
  0 <= z < 2 ^ 256 ->
  exists bytes,
    hexToUint8Array hex = Ok bytes
    /\ length bytes = 32%nat
    /\ Z.of_N (big_endian bytes) = z.
Proof.
  intros Hz Hrange.
  destruct (digits_of_number 64 (Z.to_N z)) as (ds & Hlen & Hds & Hval).
  { change (16 ^ N.of_nat 64)%N with (Z.to_N (2 ^ 256)). lia. }
  assert (Hsan : sanitise z = map hex_char ds).
  { rewrite <- (sanitise_digits ds Hds Hlen), Hval, Z2N.id by lia. reflexivity. }
  exists (pair_bytes (map hex_char ds)). split; [|split].
  - rewrite <- Hsan. apply hexToUint8Array_pairs. exact Hz.
  - rewrite length_pair_bytes, length_map, Hlen. reflexivity.
  - rewrite big_endian_pair_bytes_even.
    + fold (digits_number ds). rewrite Hval. lia.
    + assumption.
    + rewrite Hlen. exists 32%nat. reflexivity.
Qed.

(** X5. Reading a field value and writing it back keeps the number: for
    a string that [BigInt] reads as a value below 2^256, the hex string
    of the bytes [hexToUint8Array] returns is read by [BigInt] as the
    same value, and by [hexToUint8Array] as the same bytes. *)
Theorem hexToUint8Array_keeps_the_number (hex : jsstring) (z : Z) :
  BigInt hex = Ok z ->
  0 <= z < 2 ^ 256 ->
  exists bytes,
    hexToUint8Array hex = Ok bytes
    /\ BigInt (uint8ArrayToHex bytes) = Ok z
    /\ hexToUint8Array (uint8ArrayToHex bytes) = Ok bytes.
Proof.
  intros Hz Hrange.
  destruct (hexToUint8Array_in_range hex z Hz Hrange) as (bytes & Hb & Hlen & Hval).
  exists bytes. split; [exact Hb|]. split.
  - rewrite BigInt_of_hex_string, Hval; [reflexivity|].
    intros Hnil. rewrite Hnil in Hlen. discriminate Hlen.
  - apply hex_string_read_back. exact Hlen.
Qed.

Lemma hexToUint8Array_keeps_the_number_witness :
  exists bytes,
    hexToUint8Array (str " 1000 ") = Ok bytes
    /\ BigInt (uint8ArrayToHex bytes) = Ok 1000
    /\ hexToUint8Array (uint8ArrayToHex bytes) = Ok bytes.
Proof.
  apply (hexToUint8Array_keeps_the_number (str " 1000 ") 1000).
  - reflexivity.
  - lia.
Defined.

(** ** Negative values *)

Lemma pair_bytes_zeros (j : nat) (rest : jsstring) :
  pair_bytes (repeat "0"%char (2 * j) ++ rest) = repeat x00 j ++ pair_bytes rest.
Proof.
  induction j as [|j IH]; [reflexivity|].
  replace (2 * S j)%nat with (S (S (2 * j))) by lia.
  cbn [repeat app pair_bytes]. rewrite IH. reflexivity.
Qed.

(** X6. The sign of a negative value is dropped without an error when
    its magnitude has an even number of hexadecimal digits, at most 62:
    [hexToUint8Array] returns for it the bytes it returns for the
    magnitude. *)
Theorem hexToUint8Array_drops_sign (hex hex' : jsstring) (z : Z) :
  BigInt hex = Ok z ->
  BigInt hex' = Ok (- z) ->
  z < 0 ->
  Nat.Even (length (BigInt_toString16 (- z))) ->
  (length (BigInt_toString16 (- z)) <= 62)%nat ->
  hexToUint8Array hex = hexToUint8Array hex'.
Proof.
  intros Hz Hz' Hneg Heven Hshort.
  rewrite (hexToUint8Array_pairs hex z Hz), (hexToUint8Array_pairs hex' (- z) Hz').
  f_equal.
  assert (Hpos : BigInt_toString16 (- z) = hex_digits (Z.abs_N z)).
  { unfold BigInt_toString16, N_toString16.
    destruct (Z.ltb_spec (- z) 0) as [|_]; [lia|].
    replace (Z.to_N (- z)) with (Z.abs_N z) by lia.
    destruct (N.eqb_spec (Z.abs_N z) 0) as [|_]; [lia | reflexivity]. }
  assert (Hminus : BigInt_toString16 z = "-"%char :: hex_digits (Z.abs_N z)).
  { unfold BigInt_toString16, N_toString16.
    destruct (Z.ltb_spec z 0) as [_|]; [|lia].
    destruct (N.eqb_spec (Z.abs_N z) 0) as [|_]; [lia | reflexivity]. }
  rewrite Hpos in Heven, Hshort.
  unfold sanitise, padStart. rewrite Hpos, Hminus.
  set (digits := hex_digits (Z.abs_N z)) in *.
  destruct Heven as [half Hhalf].
  cbn [length].
  replace (64 - S (length digits))%nat with (S (2 * (31 - half))) by lia.
  replace (64 - length digits)%nat with (2 * S (31 - half))%nat by lia.
  cbn [repeat app].
  change ("0"%char :: repeat "0"%char (2 * (31 - half)) ++ "-"%char :: digits)
    with (("0"%char :: repeat "0"%char (2 * (31 - half))) ++ "-"%char :: digits).
  rewrite repeat_cons, <- app_assoc. cbn [app].
  rewrite !pair_bytes_zeros. cbn [pair_bytes].
  change (ToUint8 (parseInt16 ["0"%char; "-"%char])) with x00.
  change (repeat x00 (31 - half) ++ x00 :: pair_bytes digits)
    with (repeat x00 (31 - half) ++ [x00] ++ pair_bytes digits).
  rewrite app_assoc, <- repeat_cons. reflexivity.
Qed.

Lemma hexToUint8Array_drops_sign_witness :
  hexToUint8Array (str "-16") = hexToUint8Array (str "16").
Proof.
  apply (hexToUint8Array_drops_sign (str "-16") (str "16") (-16)).
  - reflexivity.
  - reflexivity.
  - lia.
  - exists 1%nat. reflexivity.
  - vm_compute. lia.
Defined.

(** A magnitude with an odd number of digits keeps the sign in its first
    pair, where [parseInt] reads a negative number and the array wraps
    it. *)
Example hexToUint8Array_minus_five :
  hexToUint8Array (str "-5") = Ok (repeat x00 31 ++ [xfb]).
Proof. vm_compute. reflexivity. Qed.

(** * Further properties of [generateProof] *)

(** ** Chunks of a region of any length *)

Lemma chunks_single (buffer : Uint8Array) :
  (0 < length buffer <= 32)%nat -> chunks buffer = [buffer].
Proof.
  intros Hlen. unfold chunks.
  assert (Hcount : chunk_count buffer = 1%nat).
  { unfold chunk_count.
    replace (length buffer + 31)%nat with (1 * 32 + (length buffer - 1))%nat by lia.
    rewrite Nat.div_add_l, Nat.div_small by lia. reflexivity. }
  rewrite Hcount. cbn [seq map]. unfold chunk_at.
  rewrite Nat.mul_0_r. cbn [skipn]. rewrite firstn_all2 by lia. reflexivity.
Qed.

Lemma chunks_cover (n : nat) :
  forall buffer : Uint8Array,
    (length buffer <= 32 * n)%nat ->
    concat (chunks buffer) = buffer
    /\ length (chunks buffer) = chunk_count buffer
    /\ Forall (fun c => (0 < length c <= 32)%nat) (chunks buffer)
    /\ Forall (fun c => length c = 32%nat) (removelast (chunks buffer)).
Proof.
  induction n as [|n IH]; intros buffer Hlen.
  - destruct buffer; [|simpl in Hlen; lia]. rewrite chunks_nil.
    split; [reflexivity|]. split; [reflexivity|]. split; constructor.
  - assert (Hcount : length (chunks buffer) = chunk_count buffer)
      by (unfold chunks; rewrite length_map, length_seq; reflexivity).
    split; [|split; [exact Hcount|]].
    + destruct (Nat.le_gt_cases (length buffer) 32) as [Hshort|Hlong].
      * destruct buffer as [|b buffer]; [reflexivity|].
        rewrite chunks_single by (simpl in *; lia).
        cbn [concat]. apply app_nil_r.
      * rewrite <- (firstn_skipn 32 buffer) at 1.
        rewrite chunks_cons by (rewrite length_firstn; lia).
        cbn [concat]. rewrite (proj1 (IH (skipn 32 buffer) ltac:(rewrite length_skipn; lia))).
        apply firstn_skipn.
    + destruct (Nat.le_gt_cases (length buffer) 32) as [Hshort|Hlong].
      * destruct buffer as [|b buffer].
        { rewrite chunks_nil. split; constructor. }
        rewrite chunks_single by (simpl in *; lia). cbn [removelast].
        split; [|apply Forall_nil].
        apply Forall_cons; [simpl in *; lia | apply Forall_nil].
      * assert (Hc : length (firstn 32 buffer) = 32%nat)
          by (rewrite length_firstn; lia).
        destruct (IH (skipn 32 buffer)) as (_ & H2 & H3 & H4).
        { rewrite length_skipn. lia. }
        rewrite <- (firstn_skipn 32 buffer).
        rewrite chunks_cons by exact Hc.
        split; [constructor; [lia | exact H3]|].
        assert (Hne : chunks (skipn 32 buffer) <> []).
        { intros Hnil. rewrite Hnil in H2. unfold chunk_count in H2.
          rewrite length_skipn in H2.
          assert (H32 : (1 <= (length buffer - 32 + 31) / 32)%nat)
            by (apply Nat.div_le_lower_bound; lia).
          rewrite <- H2 in H32. cbn [length] in H32. lia. }
        destruct (chunks (skipn 32 buffer)) as [|c cs] eqn:Hcs; [contradiction|].
        cbn [removelast]. constructor; [exact Hc | exact H4].
Qed.

(** X7. The loop that cuts the public-input region always ends, and
    loses no byte: the chunks, in order, concatenate to the region; there
    is one chunk per 32 bytes, rounded up; none is empty or longer than
    32 bytes, and every chunk but the last has exactly 32. *)
Theorem flattened_public_inputs_cover_the_region (region : Uint8Array) :
  exists cs,
    flattened_public_inputs region = Ok cs
    /\ concat cs = region
    /\ length cs = Nat.div (length region + 31) 32
    /\ Forall (fun c => (0 < length c <= 32)%nat) cs
    /\ Forall (fun c => length c = 32%nat) (removelast cs).
Proof.
  exists (chunks region). split; [apply flattened_public_inputs_chunks|].
  apply (chunks_cover (length region)). lia.
Qed.

(** ** The public witnesses of an ABI *)

Lemma rmap_Forall2 {A B : Type} (f : A -> outcome B) (l : list A) :
  forall ys, rmap f l = Ok ys -> Forall2 (fun x y => f x = Ok y) l ys.
Proof.
  induction l as [|x l IH]; intros ys H; simpl in H.
  - inversion H. constructor.
  - destruct (f x) as [y| |] eqn:Hx; cbn in H; try discriminate H.
    destruct (rmap f l) as [ys'| |]; cbn in H; try discriminate H.
    inversion H; subst. constructor; [exact Hx | apply IH; reflexivity].
Qed.

Lemma range_witnesses_In (r : WitnessRange) (k : N) :
  In k (range_witnesses r) <-> (start r <= k < end_ r)%N.
Proof.
  unfold range_witnesses. rewrite in_map_iff. split.
  - intros (i & <- & Hi). apply in_seq in Hi. lia.
  - intros Hk. exists (N.to_nat (k - start r)). split; [lia|].
    apply in_seq. lia.
Qed.

Lemma sort_In (l : list N) (k : N) : In k (sort l) <-> In k l.
Proof.
  split; intros H.
  - eapply Permutation_in; [apply Permutation_sym, sort_perm | exact H].
  - eapply Permutation_in; [apply sort_perm | exact H].
Qed.

Lemma Forall2_In_left {A B : Type} (R : A -> B -> Prop) (l : list A) (ys : list B) :
  Forall2 R l ys -> forall y, In y ys -> exists x, In x l /\ R x y.
Proof.
  induction 1 as [|x y l ys Hxy _ IH]; intros y' Hy; [contradiction|].
  destruct Hy as [<-|Hy].
  - exists x. split; [left; reflexivity | exact Hxy].
  - destruct (IH y' Hy) as (x' & Hx' & HR). exists x'. split; [right|]; assumption.
Qed.

Lemma Forall2_In_right {A B : Type} (R : A -> B -> Prop) (l : list A) (ys : list B) :
  Forall2 R l ys -> forall x, In x l -> exists y, In y ys /\ R x y.
Proof.
  induction 1 as [|x y l ys Hxy _ IH]; intros x' Hx; [contradiction|].
  destruct Hx as [<-|Hx].
  - exists y. split; [left; reflexivity | exact Hxy].
  - destruct (IH x' Hx) as (y' & Hy' & HR). exists y'. split; [right|]; assumption.
Qed.

Lemma public_parameter_witnesses_In (abi : Abi) (ps : list N) (k : N) :
  public_parameter_witnesses_of abi = Ok ps ->
  In k ps <->
  exists param ranges r,
    In param (parameters abi)
    /\ str_eqb (visibility param) (str "public") = true
    /\ object_get (param_witnesses abi) (name param) = Some ranges
    /\ In r ranges
    /\ (start r <= k < end_ r)%N.
Proof.
  unfold public_parameter_witnesses_of.
  match goal with |- context [rmap ?f ?l] =>
    set (each := f); set (publics := l) end.
  destruct (rmap each publics) as [per_param| |] eqn:Hmap; cbn; intros H;
    inversion H; subst ps; clear H.
  apply rmap_Forall2 in Hmap. rewrite in_concat. split.
  - intros (ws & Hws & Hk).
    destruct (Forall2_In_left _ _ _ Hmap ws Hws) as (param & Hparam & Heach).
    unfold publics in Hparam. apply filter_In in Hparam.
    destruct Hparam as [Hin Hvis]. unfold each in Heach.
    destruct (object_get (param_witnesses abi) (name param)) as [ranges|] eqn:Hget;
      [|discriminate Heach].
    inversion Heach; subst ws. apply in_flat_map in Hk.
    destruct Hk as (r & Hr & Hk). apply range_witnesses_In in Hk.
    exists param, ranges, r. repeat split; try assumption; lia.
  - intros (param & ranges & r & Hin & Hvis & Hget & Hr & Hk).
    assert (Hparam : In param publics)
      by (unfold publics; apply filter_In; split; assumption).
    destruct (Forall2_In_right _ _ _ Hmap param Hparam) as (ws & Hws & Heach).
    unfold each in Heach. rewrite Hget in Heach. inversion Heach; subst ws.
    exists (flat_map range_witnesses ranges). split; [exact Hws|].
    apply in_flat_map. exists r. split; [exact Hr|].
    apply range_witnesses_In. exact Hk.
Qed.

(** X8. The public witnesses [generateProof] works with are, without
    duplicates, exactly the return witnesses and the indices
    [start, ..., end - 1] of every range of every parameter marked
    public; a parameter with another visibility, or a range whose end is
    not above its start, contributes nothing. *)
Theorem public_input_witnesses_are_the_public_ranges (abi : Abi) (ws : list N) :
  public_input_witnesses_of abi = Ok ws ->
  NoDup ws
  /\ forall k : N,
      In k ws <->
      In k (return_witnesses abi)
      \/ exists param ranges r,
          In param (parameters abi)
          /\ str_eqb (visibility param) (str "public") = true
          /\ object_get (param_witnesses abi) (name param) = Some ranges
          /\ In r ranges
          /\ (start r <= k < end_ r)%N.
Proof.
  intros Hws. split; [apply (public_input_witnesses_sorted_nodup abi ws Hws)|].
  intros k. unfold public_input_witnesses_of in Hws.
  destruct (public_parameter_witnesses_of abi) as [ps| |] eqn:Hps; cbn in Hws;
    inversion Hws; subst ws.
  rewrite sort_In, new_Set_In, in_app_iff.
  rewrite (public_parameter_witnesses_In abi ps k Hps). tauto.
Qed.

Lemma public_input_witnesses_are_the_public_ranges_witness :
  NoDup [1; 2; 4]%N
  /\ forall k : N,
      In k [1; 2; 4]%N <->
      In k (return_witnesses sample_abi)
      \/ exists param ranges r,
          In param (parameters sample_abi)
          /\ str_eqb (visibility param) (str "public") = true
          /\ object_get (param_witnesses sample_abi) (name param) = Some ranges
          /\ In r ranges
          /\ (start r <= k < end_ r)%N.
Proof.
  apply (public_input_witnesses_are_the_public_ranges sample_abi [1; 2; 4]%N).
  reflexivity.
Defined.

Lemma rmap_throws_first {A B : Type} (f : A -> outcome B) (e : JsError) (l : list A) :
  (forall x, In x l -> f x = Throw e \/ exists y, f x = Ok y) ->
  (exists x, In x l /\ f x = Throw e) ->
  rmap f l = Throw e.
Proof.
  induction l as [|x l IH]; intros Hall (bad & Hbad & Hthrow); [contradiction|].
  cbn [rmap]. destruct (Hall x (or_introl eq_refl)) as [Hx|(y & Hx)]; rewrite Hx.
  - reflexivity.
  - cbn [rbind]. rewrite IH; [reflexivity | |].
    + intros x' Hx'. apply Hall. right. exact Hx'.
    + destruct Hbad as [<-|Hbad]; [congruence|]. exists bad. split; assumption.
Qed.

Lemma rmap_all_ok {A B : Type} (f : A -> outcome B) (l : list A) :
  (forall x, In x l -> exists y, f x = Ok y) ->
  exists ys, rmap f l = Ok ys.
Proof.
  induction l as [|x l IH]; intros Hall; [exists []; reflexivity|].
  destruct (Hall x (or_introl eq_refl)) as (y & Hy).
  destruct IH as (ys & Hys); [intros x' Hx'; apply Hall; right; exact Hx'|].
  exists (y :: ys). cbn [rmap]. rewrite Hy. cbn [rbind]. rewrite Hys. reflexivity.
Qed.

(** X9. Reading the ABI fails in one way only: with a [TypeError],
    exactly when some parameter marked public has no entry in
    [param_witnesses]. A missing entry for a parameter that is not public
    is no error. *)
Theorem public_input_witnesses_error (abi : Abi) :
  ((exists param,
       In param (parameters abi)
       /\ str_eqb (visibility param) (str "public") = true
       /\ object_get (param_witnesses abi) (name param) = None)
   <-> public_input_witnesses_of abi = Throw TypeError)
  /\ (public_input_witnesses_of abi = Throw TypeError
      \/ exists ws, public_input_witnesses_of abi = Ok ws).
Proof.
  unfold public_input_witnesses_of, public_parameter_witnesses_of.
  match goal with |- context [rmap ?f ?l] =>
    set (each := f); set (publics := l) end.
  assert (Heach : forall param,
             each param = Throw TypeError
             /\ object_get (param_witnesses abi) (name param) = None
             \/ exists y, each param = Ok y
                          /\ object_get (param_witnesses abi) (name param) <> None).
  { intros param. unfold each.
    destruct (object_get (param_witnesses abi) (name param)).
    - right. eexists. split; [reflexivity | discriminate].
    - left. split; reflexivity. }
  assert (Hpub : forall param,
             In param publics <->
             In param (parameters abi)
             /\ str_eqb (visibility param) (str "public") = true)
    by (intros param; unfold publics; apply filter_In).
  assert (Hcases :
            (exists param, In param publics
                           /\ object_get (param_witnesses abi) (name param) = None)
            \/ (forall param, In param publics -> exists y, each param = Ok y)).
  { clear Hpub. induction publics as [|p ps IH].
    - right. intros param [].
    - destruct (Heach p) as [[_ Hnone]|(y & Hy & _)].
      + left. exists p. split; [left; reflexivity | exact Hnone].
      + destruct IH as [(param & Hin & Hnone)|Hok].
        * left. exists param. split; [right; exact Hin | exact Hnone].
        * right. intros param [<-|Hin]; [exists y; exact Hy | apply Hok; exact Hin]. }
  destruct Hcases as [(param & Hin & Hnone)|Hok].
  - assert (Hthrow : rmap each publics = Throw TypeError).
    { apply rmap_throws_first.
      - intros x _. destruct (Heach x) as [[H _]|(y & H & _)];
          [left; exact H | right; exists y; exact H].
      - exists param. split; [exact Hin|].
        destruct (Heach param) as [[H _]|(y & _ & H)]; [exact H | contradiction]. }
    rewrite Hthrow. cbn [rbind]. split; [|left; reflexivity].
    split; [reflexivity|]. intros _. exists param.
    apply Hpub in Hin. destruct Hin as [Hin Hvis]. repeat split; assumption.
  - destruct (rmap_all_ok each publics Hok) as (ys & Hys).
    rewrite Hys. cbn [rbind]. split; [|right; eexists; reflexivity].
    split; [|discriminate].
    intros (param & Hin & Hvis & Hnone). exfalso.
    destruct (Hok param (proj2 (Hpub param) (conj Hin Hvis))) as (y & Hy).
    destruct (Heach param) as [[H _]|(y' & _ & H)]; [congruence | contradiction].
Qed.

(** ** When the order of the strings is the order of the numbers *)

(** X10. On indices below 10 the [sort] of both functions does order
    numerically: an array of distinct indices, all of one decimal digit,
    comes out strictly ascending. *)
Theorem sort_ascending_below_10 (l : list N) :
  NoDup l ->
  Forall (fun k => (k < 10)%N) l ->
  Sorted N.lt (sort l).
Proof.
  intros Hnd Hsmall.
  assert (Hnd' : NoDup (sort l))
    by (eapply Permutation_NoDup; [apply sort_perm | exact Hnd]).
  assert (Hsmall' : Forall (fun k => (k < 10)%N) (sort l))
    by (eapply Permutation_Forall; [apply sort_perm | exact Hsmall]).
  pose proof (sort_sorted l) as Hsorted.
  induction Hsorted as [|x rest Hrest IH Hhd]; [constructor|].
  inversion Hnd' as [|? ? Hnotin Hnd'']; subst.
  inversion Hsmall' as [|? ? Hx Hsmall'']; subst.
  constructor; [apply IH; assumption|].
  destruct Hhd as [|y rest' Hxy]; constructor.
  inversion Hsmall'' as [|? ? Hy _]; subst.
  unfold not_after in Hxy. rewrite sort_before_one_digit in Hxy by assumption.
  apply N.ltb_ge in Hxy.
  assert (x <> y) by (intros ->; apply Hnotin; left; reflexivity). lia.
Qed.

Lemma sort_ascending_below_10_witness : Sorted N.lt (sort [7; 2; 9; 0; 4]%N).
Proof.
  apply (sort_ascending_below_10 [7; 2; 9; 0; 4]%N).
  - repeat constructor; simpl; intuition discriminate.
  - repeat constructor.
Defined.

(** ** More chunks than public witnesses *)






(** * Further properties of [reconstructProofWithPublicInputs] *)

Lemma Map_get_member (m : WitnessMap) (key : N) (value : jsstring) :
  NoDup (Map_keys m) -> In (key, value) m -> Map_get m key = Some value.
Proof.
  induction m as [|[k v] m IH]; simpl; intros Hnd Hin; [contradiction|].
  inversion Hnd as [|? ? Hnotin Hnd']; subst.
  destruct Hin as [Heq|Hin].
  - inversion Heq; subst. rewrite N.eqb_refl. reflexivity.
  - destruct (N.eqb_spec k key) as [->|_].
    + exfalso. apply Hnotin. apply (in_map fst) in Hin. exact Hin.
    + apply IH; assumption.
Qed.

Lemma Map_get_permutation (m1 m2 : WitnessMap) (key : N) :
  NoDup (Map_keys m1) -> Permutation m1 m2 -> Map_get m1 key = Map_get m2 key.
Proof.
  intros Hnd Hperm.
  assert (Hkeys : Permutation (Map_keys m1) (Map_keys m2))
    by (apply Permutation_map; exact Hperm).
  assert (Hnd2 : NoDup (Map_keys m2))
    by (eapply Permutation_NoDup; eassumption).
  destruct (in_dec N.eq_dec key (Map_keys m1)) as [Hin|Hout].
  - destruct (Map_get_present m1 key Hin) as (v & Hget & Hmem).
    rewrite Hget. symmetry. apply Map_get_member; [exact Hnd2|].
    eapply Permutation_in; eassumption.
  - rewrite !Map_get_absent; [reflexivity | | exact Hout].
    intros Hin. apply Hout.
    eapply Permutation_in; [apply Permutation_sym; exact Hkeys | exact Hin].
Qed.

Lemma rmap_ext {A B : Type} (f g : A -> outcome B) (l : list A) :
  (forall x, f x = g x) -> rmap f l = rmap g l.
Proof.
  intros Hfg. induction l as [|x l IH]; simpl; [reflexivity|].
  rewrite Hfg, IH. reflexivity.
Qed.

(** X12. The reassembled buffer depends on the bindings of the witness
    map, not on the order in which they were inserted. *)
Theorem reconstruct_ignores_insertion_order (inputs1 inputs2 : WitnessMap)
  (p : Uint8Array) :
  NoDup (Map_keys inputs1) ->
  Permutation inputs1 inputs2 ->
  reconstructProofWithPublicInputs {| proof := p; publicInputs := inputs1 |}
  = reconstructProofWithPublicInputs {| proof := p; publicInputs := inputs2 |}.
Proof.
  intros Hnd Hperm. unfold reconstructProofWithPublicInputs. cbn [publicInputs proof].
  rewrite (sort_permutation (Map_keys inputs1) (Map_keys inputs2))
    by (apply Permutation_map; exact Hperm).
  rewrite (rmap_ext _ (fun index => hexToUint8Array_of (Map_get inputs2 index)));
    [reflexivity|].
  intros index. rewrite (Map_get_permutation inputs1 inputs2 index Hnd Hperm).
  reflexivity.
Qed.

Lemma reconstruct_ignores_insertion_order_witness :
  reconstructProofWithPublicInputs
    {| proof := sample_proof; publicInputs := [(2%N, str "0x02"); (10%N, str "0x0a")] |}
  = reconstructProofWithPublicInputs
      {| proof := sample_proof; publicInputs := [(10%N, str "0x0a"); (2%N, str "0x02")] |}.
Proof.
  apply (reconstruct_ignores_insertion_order
           [(2%N, str "0x02"); (10%N, str "0x0a")]
           [(10%N, str "0x0a"); (2%N, str "0x02")] sample_proof).
  - repeat constructor; simpl; intuition discriminate.
  - apply perm_swap.
Defined.

Lemma hexToUint8Array_cases (hex : jsstring) :
  (StringToBigInt hex = None /\ hexToUint8Array hex = Throw SyntaxError)
  \/ (StringToBigInt hex <> None /\ exists bytes, hexToUint8Array hex = Ok bytes).
Proof.
  destruct (StringToBigInt hex) as [z|] eqn:Hz.
  - right. split; [discriminate|]. exists (pair_bytes (sanitise z)).
    apply hexToUint8Array_pairs. unfold BigInt. rewrite Hz. reflexivity.
  - left. split; [reflexivity|]. apply hexToUint8Array_throws. exact Hz.
Qed.

(** X13. On a witness map, whose keys are distinct,
    [reconstructProofWithPublicInputs] fails in one way only: with the
    [SyntaxError] of [BigInt], exactly when [BigInt] rejects the value of
    some entry. *)
Theorem reconstruct_error (proofData : ProofData) :
  NoDup (Map_keys (publicInputs proofData)) ->
  ((exists k v, In (k, v) (publicInputs proofData) /\ StringToBigInt v = None)
   <-> reconstructProofWithPublicInputs proofData = Throw SyntaxError)
  /\ (reconstructProofWithPublicInputs proofData = Throw SyntaxError
      \/ exists x, reconstructProofWithPublicInputs proofData = Ok x).
Proof.
  intros Hnd. unfold reconstructProofWithPublicInputs.
  set (inputs := publicInputs proofData) in *.
  set (each := fun index => hexToUint8Array_of (Map_get inputs index)).
  assert (Hkey : forall k, In k (sort (Map_keys inputs)) ->
                           exists v, In (k, v) inputs /\ each k = hexToUint8Array v).
  { intros k Hk. apply (proj1 (sort_In _ _)) in Hk.
    destruct (Map_get_present inputs k Hk) as (v & Hget & Hmem).
    exists v. split; [exact Hmem|]. unfold each. rewrite Hget. reflexivity. }
  assert (Hcases :
            (exists k v, In k (sort (Map_keys inputs)) /\ In (k, v) inputs
                         /\ StringToBigInt v = None /\ each k = Throw SyntaxError)
            \/ (forall k, In k (sort (Map_keys inputs)) ->
                          exists v bytes, In (k, v) inputs
                                          /\ StringToBigInt v <> None
                                          /\ each k = Ok bytes)).
  { induction (sort (Map_keys inputs)) as [|k ks IH].
    - right. intros k [].
    - destruct (Hkey k (or_introl eq_refl)) as (v & Hmem & Hv).
      destruct (hexToUint8Array_cases v) as [[Hnone Hthrow]|[Hsome (bytes & Hok)]].
      + left. exists k, v. repeat split; try assumption; [left; reflexivity|congruence].
      + destruct IH as [(k' & v' & Hin & Hrest)|Hall].
        * intros k' Hk'. apply Hkey. right. exact Hk'.
        * left. exists k', v'. split; [right; exact Hin | exact Hrest].
        * right. intros k' [<-|Hk'].
          -- exists v, bytes. repeat split; try assumption. congruence.
          -- apply Hall. exact Hk'. }
  destruct Hcases as [(k & v & Hin & Hmem & Hnone & Hthrow)|Hall].
  - assert (Hrun : rmap each (sort (Map_keys inputs)) = Throw SyntaxError).
    { apply rmap_throws_first.
      - intros k' Hk'. destruct (Hkey k' Hk') as (v' & _ & Hv'). rewrite Hv'.
        destruct (hexToUint8Array_cases v') as [[_ H]|[_ (bytes & H)]];
          [left; exact H | right; exists bytes; exact H].
      - exists k. split; assumption. }
    fold each. rewrite Hrun. cbn [rbind]. split; [|left; reflexivity].
    split; [reflexivity|]. intros _. exists k, v. split; assumption.
  - destruct (rmap_all_ok each (sort (Map_keys inputs))) as (cs & Hcs).
    { intros k Hk. destruct (Hall k Hk) as (v & bytes & _ & _ & Hok).
      exists bytes. exact Hok. }
    fold each. rewrite Hcs. cbn [rbind]. rewrite flattenUint8Arrays_concat.
    cbn [rbind]. split; [|right; eexists; reflexivity].
    split; [|discriminate].
    intros (k & v & Hmem & Hnone). exfalso.
    assert (Hk : In k (sort (Map_keys inputs)))
      by (apply (proj2 (sort_In _ _)); apply (in_map fst) in Hmem; exact Hmem).
    destruct (Hall k Hk) as (v' & bytes & Hmem' & Hsome & _).
    assert (v' = v); [|congruence].
    pose proof (Map_get_member inputs k v Hnd Hmem) as H1.
    pose proof (Map_get_member inputs k v' Hnd Hmem') as H2. congruence.
Qed.

Lemma reconstruct_error_witness :
  reconstructProofWithPublicInputs
    {| proof := sample_proof;
       publicInputs := [(1%N, str "0x01"); (2%N, str "ff")] |}
  = Throw SyntaxError.
Proof.
  destruct (reconstruct_error
              {| proof := sample_proof;
                 publicInputs := [(1%N, str "0x01"); (2%N, str "ff")] |})
    as [[Hthrow _] _].
  - repeat constructor; simpl; intuition discriminate.
  - apply Hthrow. exists 2%N, (str "ff"). split; [right; left|]; reflexivity.
Defined.

Lemma Forall2_nth_error {A B : Type} (R : A -> B -> Prop) (l : list A) (ys : list B) :
  Forall2 R l ys ->
  forall i x, nth_error l i = Some x -> exists y, nth_error ys i = Some y /\ R x y.
Proof.
  induction 1 as [|x y l ys Hxy _ IH]; intros [|i] x' Hx; simpl in *;
    try discriminate.
  - inversion Hx; subst. exists y. split; [reflexivity | exact Hxy].
  - apply IH. exact Hx.
Qed.

Lemma chunk_at_concat (cs : list Uint8Array) (rest : Uint8Array) :
  Forall (fun c => length c = 32%nat) cs ->
  forall i c, nth_error cs i = Some c -> chunk_at (concat cs ++ rest) i = c.
Proof.
  unfold chunk_at.
  induction 1 as [|c0 cs Hc0 _ IH]; intros [|i] c Hc; simpl in Hc;
    try discriminate.
  - inversion Hc; subst. rewrite Nat.mul_0_r. cbn [skipn concat].
    rewrite <- app_assoc, firstn_app, <- Hc0, firstn_all, Nat.sub_diag.
    simpl. apply app_nil_r.
  - cbn [concat]. rewrite <- app_assoc.
    replace (32 * S i)%nat with (32 * i + length c0)%nat by lia.
    rewrite <- skipn_skipn, skipn_app, skipn_all, Nat.sub_diag. cbn [skipn app].
    apply IH. exact Hc.
Qed.

Lemma rmap_in_range (inputs : WitnessMap) (l : list N) :
  (forall k v, In (k, v) inputs -> exists z, BigInt v = Ok z /\ 0 <= z < 2 ^ 256) ->
  incl l (Map_keys inputs) ->
  exists cs,
    rmap (fun index => hexToUint8Array_of (Map_get inputs index)) l = Ok cs
    /\ Forall2 (fun k c =>
                  length c = 32%nat
                  /\ exists v, Map_get inputs k = Some v
                               /\ BigInt v = Ok (Z.of_N (big_endian c))) l cs.
Proof.
  intros Hrange. induction l as [|k l IH]; intros Hincl.
  - exists []. split; [reflexivity | constructor].
  - destruct IH as (cs & Hcs & Hall).
    { intros y Hy. apply Hincl. right. exact Hy. }
    destruct (Map_get_present inputs k) as (v & Hget & Hmem).
    { apply Hincl. left. reflexivity. }
    destruct (Hrange k v Hmem) as (z & Hz & Hzr).
    destruct (hexToUint8Array_in_range v z Hz Hzr) as (c & Hc & Hlen & Hval).
    exists (c :: cs). split.
    + cbn [rmap]. rewrite Hget. cbn [hexToUint8Array_of]. rewrite Hc.
      cbn [rbind]. rewrite Hcs. reflexivity.
    + constructor; [|exact Hall]. split; [exact Hlen|].
      exists v. split; [exact Hget|]. rewrite Hval. exact Hz.
Qed.

(** X14. When every value of the witness map is read by [BigInt] as a
    number below 2^256, [reconstructProofWithPublicInputs] succeeds with 32
    bytes per entry followed by the proof bytes: the chunk of rank [i]
    holds, big-endian, the value of the key of rank [i] in the order of
    [sort]. *)
Theorem reconstruct_layout (proofData : ProofData) :
  (forall k v, In (k, v) (publicInputs proofData) ->
               exists z, BigInt v = Ok z /\ 0 <= z < 2 ^ 256) ->
  exists x,
    reconstructProofWithPublicInputs proofData = Ok x
    /\ length x = (32 * length (publicInputs proofData) + length (proof proofData))%nat
    /\ skipn (32 * length (publicInputs proofData)) x = proof proofData
    /\ forall i key,
        nth_error (sort (Map_keys (publicInputs proofData))) i = Some key ->
        exists v,
          Map_get (publicInputs proofData) key = Some v
          /\ BigInt v = Ok (Z.of_N (big_endian (chunk_at x i))).
Proof.
  intros Hrange.
  destruct (rmap_in_range (publicInputs proofData)
              (sort (Map_keys (publicInputs proofData))) Hrange)
    as (cs & Hcs & Hall).
  { intros k Hk. apply (proj1 (sort_In _ _)) in Hk. exact Hk. }
  assert (H32 : Forall (fun c => length c = 32%nat) cs).
  { clear -Hall. induction Hall as [|? ? ? ? [H _] _ IH]; constructor; assumption. }
  assert (Hcount : length cs = length (publicInputs proofData)).
  { symmetry. etransitivity; [|exact (Forall2_length Hall)].
    rewrite <- (Permutation_length (sort_perm _)).
    unfold Map_keys. symmetry. apply length_map. }
  destruct (chunks_concat cs H32) as [_ Hregion].
  exists (concat cs ++ proof proofData).
  split; [|split; [|split]].
  - unfold reconstructProofWithPublicInputs. rewrite Hcs. cbn [rbind].
    rewrite flattenUint8Arrays_concat. reflexivity.
  - rewrite length_app, Hregion, Hcount. reflexivity.
  - rewrite <- Hcount, <- Hregion, skipn_app, skipn_all, Nat.sub_diag. reflexivity.
  - intros i key Hkey.
    destruct (Forall2_nth_error _ _ _ Hall i key Hkey) as (c & Hc & _ & v & Hget & Hv).
    exists v. split; [exact Hget|].
    rewrite (chunk_at_concat cs (proof proofData) H32 i c Hc). exact Hv.
Qed.

Lemma reconstruct_layout_witness :
  exists x,
    reconstructProofWithPublicInputs
      {| proof := sample_proof;
         publicInputs := [(2%N, str "0x02"); (10%N, str "255")] |} = Ok x
    /\ length x = (32 * 2 + length sample_proof)%nat
    /\ skipn (32 * 2) x = sample_proof
    /\ forall i key,
        nth_error (sort [2; 10]%N) i = Some key ->
        exists v,
          Map_get [(2%N, str "0x02"); (10%N, str "255")] key = Some v
          /\ BigInt v = Ok (Z.of_N (big_endian (chunk_at x i))).
Proof.
  apply (reconstruct_layout
           {| proof := sample_proof;
              publicInputs := [(2%N, str "0x02"); (10%N, str "255")] |}).
  intros k v [H|[H|[]]]; inversion H; subst.
  - exists 2. split; [reflexivity | lia].
  - exists 255. split; [reflexivity | lia].
Defined.

(** * Further properties of the backend methods *)

Arguments generateFinalProof {Api Composer Fr} decompressedWitness.
Arguments generateIntermediateProof {Api Composer Fr} witness.
Arguments verifyFinalProof {Api Composer Fr} proofData.
Arguments verifyIntermediateProof {Api Composer Fr} proofData.
Arguments verifyProof {Api Composer Fr} proof makeEasyToVerifyInCircuit.
Arguments lift {Api Composer Fr A} o.

Section Methods.

Variables Api Composer Fr World : Type.
Variable Fr_toString : Fr -> jsstring.
Variable h : Handler Api Composer Fr World.

Abbreviation Backend' := (BarretenbergBackend Api Composer).

#[local] Opaque splitProof reconstructProofWithPublicInputs.

Ltac answer' :=
  match goal with
  | |- context [h ?R ?c ?w] =>
      let w' := fresh "w" in
      let v := fresh "v" in
      destruct (h R c w) as [w' [v|]]
  | |- context [splitProof ?a ?b] => destruct (splitProof a b)
  | |- context [reconstructProofWithPublicInputs ?p] =>
      destruct (reconstructProofWithPublicInputs p)
  | v : (_ * _)%type |- _ => destruct v
  end.

Ltac run_through' := repeat (cbn; try answer').

(** X15. [instantiate] sets the handle last: when a call of it on an
    uninstantiated backend does not complete, it is because a native call
    rejected, and the handle is still unset, so that the next call starts
    the set-up again. *)
Theorem instantiate_failure_leaves_api_unset (this : Backend') (w : World) :
  api this = None ->
  ending (run h instantiate this w) <> Completed (Ok tt) ->
  ending (run h instantiate this w) = Rejected
  /\ api (final (run h instantiate this w)) = None.
Proof.
  destruct this as [[a|] c b circuit o]; cbn [api]; intros Ha; [discriminate Ha|].
  run_through'; intros H; try (split; reflexivity); exfalso; apply H; reflexivity.
Qed.

(** X16. Every method but [destroy] instantiates the backend before it
    completes: after any of them completes, the handle is set. *)
Theorem completed_operation_sets_api (op : Operation) (this : Backend') (w : World) :
  op <> op_destroy ->
  ending (run h (perform Fr_toString op) this w) = Completed (Ok tt) ->
  api (final (run h (perform Fr_toString op) this w)) <> None.
Proof.
  intros Hop.
  destruct this as [[a|] c b circuit o]; destruct op; try contradiction;
    run_through'; intros H; try discriminate H; discriminate.
Qed.

Lemma perform_no_setup (op : Operation) (this : Backend') (w : World) (a : Api) :
  api this = Some a ->
  api (final (run h (perform Fr_toString op) this w)) = Some a
  /\ forall c, In c (calls (run h (perform Fr_toString op) this w)) ->
               ~ In (name_of c) setup_calls.
Proof.
  destruct this as [a' c b circuit o]. cbn [api]. intros ->.
  destruct op; run_through';
    (split; [reflexivity|]; intros call Hcall; cbn in Hcall;
     repeat (destruct Hcall as [<-|Hcall]; [cbn; intuition discriminate|]);
     contradiction).
Qed.

(** X17. Once the handle is set, no method ever sets the native side up
    again: whatever methods are called afterwards, and however they end,
    none of the calls they make is a set-up call. *)
Theorem no_setup_once_instantiated (ops : list Operation) (this : Backend')
  (w : World) (a : Api) :
  api this = Some a ->
  forall c, In c (calls (run_all Fr_toString h ops this w)) ->
            ~ In (name_of c) setup_calls.
Proof.
  revert this w. induction ops as [|op ops IH]; intros this w Ha c Hc.
  - contradiction.
  - cbn [run_all calls] in Hc. apply in_app_iff in Hc.
    destruct (perform_no_setup op this w a Ha) as [Ha' Hnone].
    destruct Hc as [Hc|Hc].
    + apply Hnone. exact Hc.
    + eapply IH; [exact Ha' | exact Hc].
Qed.

(** X18. The two verify methods reassemble the proof before anything
    else: when that throws, they throw the same error having made no
    native call, not even to instantiate, and the backend is as it
    was. *)
Theorem verify_malformed_proof_data (proofData : ProofData) (e : JsError)
  (this : Backend') (w : World) :
  reconstructProofWithPublicInputs proofData = Throw e ->
  run h (verifyFinalProof proofData) this w
  = {| calls := []; final := this; world := w; ending := Completed (Throw e) |}
  /\ run h (verifyIntermediateProof proofData) this w
     = {| calls := []; final := this; world := w; ending := Completed (Throw e) |}.
Proof.
  intros He. unfold verifyFinalProof, verifyIntermediateProof, lift.
  rewrite He. split; reflexivity.
Qed.

Lemma verify_calls (proofData : ProofData) (x : Uint8Array) (flag : bool)
  (this : Backend') (w w' : World) (a : Api) :
  api this = Some a ->
  reconstructProofWithPublicInputs proofData = Ok x ->
  h _ (AcirInitVerificationKey a (acirComposer this)) w = (w', Some tt) ->
  let verify := if flag then verifyIntermediateProof proofData
                else verifyFinalProof proofData in
  calls (run h verify this w)
  = [ any_call (AcirInitVerificationKey a (acirComposer this));
      any_call (AcirVerifyProof a (acirComposer this) x flag) ]
  /\ ending (run h verify this w)
     = match snd (h _ (AcirVerifyProof a (acirComposer this) x flag) w') with
       | Some verified => Completed (Ok verified)
       | None => Rejected
       end.
Proof.
  destruct this as [a' c b circuit o]. cbn [api acirComposer]. intros -> Hx Hkey.
  destruct flag; cbn; unfold lift; rewrite Hx; cbn; rewrite Hkey; cbn;
    destruct (h bool (AcirVerifyProof a c x _) w') as [w'' [verified|]];
    split; reflexivity.
Qed.

(** X19. What is verified is what was proved. On an instantiated backend,
    when the native library returns a buffer of one 32-byte chunk per
    public witness and 2144 proof bytes, [generateFinalProof] completes,
    and [verifyFinalProof] on its result hands back to the native
    [acirVerifyProof] that very buffer, with the same flag, after
    initialising the verification key; its answer is the native one. The
    same holds of the intermediate pair. *)
Theorem verify_receives_the_generated_buffer (this : Backend') (w w1 w2 : World)
  (a : Api) (ws : list N) (compressedWitness witness x : Uint8Array) (flag : bool) :
  api this = Some a ->
  public_input_witnesses_of (abi (acirCircuit this)) = Ok ws ->
  h _ (Gunzip compressedWitness) w = (w1, Some witness) ->
  h _ (AcirCreateProof a (acirComposer this) (acirUncompressedBytecode this)
         witness flag) w1 = (w2, Some x) ->
  length x = (32 * length ws + 2144)%nat ->
  let generate := if flag then generateIntermediateProof compressedWitness
                  else generateFinalProof compressedWitness in
  exists pd,
    ending (run h generate this w) = Completed (Ok pd)
    /\ final (run h generate this w) = this
    /\ forall w3 w4,
        h _ (AcirInitVerificationKey a (acirComposer this)) w3 = (w4, Some tt) ->
        let verify := if flag then verifyIntermediateProof pd
                      else verifyFinalProof pd in
        calls (run h verify this w3)
        = [ any_call (AcirInitVerificationKey a (acirComposer this));
            any_call (AcirVerifyProof a (acirComposer this) x flag) ]
        /\ ending (run h verify this w3)
           = match snd (h _ (AcirVerifyProof a (acirComposer this) x flag) w4) with
             | Some verified => Completed (Ok verified)
             | None => Rejected
             end.
Proof.
  intros Ha Hws Hgunzip Hproof Hlen generate.
  destruct (reconstruct_after_split (abi (acirCircuit this)) ws x Hws Hlen)
    as (pd & Hsplit & _ & _ & Hback).
  exists pd.
  assert (Hrun : ending (run h generate this w) = Completed (Ok pd)
                 /\ final (run h generate this w) = this).
  { unfold generate. clear Hback.
    destruct this as [a' c b circuit o].
    cbn [api acirComposer acirUncompressedBytecode acirCircuit] in *. subst a'.
    destruct flag; cbn; rewrite Hgunzip; cbn; rewrite Hproof; cbn;
      unfold lift; rewrite Hsplit; split; reflexivity. }
  destruct Hrun as [Hend Hfinal]. split; [exact Hend|]. split; [exact Hfinal|].
  intros w3 w4 Hkey. apply (verify_calls pd x flag this w3 w4 a Ha Hback Hkey).
Qed.

End Methods.

Lemma instantiate_failure_leaves_api_unset_witness :
  ending (run crs_failing_handler instantiate sample_backend 0%nat) = Rejected
  /\ api (final (run crs_failing_handler instantiate sample_backend 0%nat)) = None.
Proof.
  apply (instantiate_failure_leaves_api_unset nat nat unit nat crs_failing_handler
           sample_backend 0%nat).
  - reflexivity.
  - vm_compute. intros H. discriminate H.
Defined.

Lemma completed_operation_sets_api_witness :
  api (final (run sample_handler
                (perform (fun _ : unit => str "0x00") (op_generateFinalProof [x01]))
                sample_backend 0%nat))
  <> None.
Proof.
  apply (completed_operation_sets_api nat nat unit nat (fun _ : unit => str "0x00")
           sample_handler (op_generateFinalProof [x01]) sample_backend 0%nat).
  - discriminate.
  - vm_compute. reflexivity.
Defined.

Lemma no_setup_once_instantiated_witness :
  Forall (fun c => ~ In (name_of c) setup_calls)
    (calls (run_all (fun _ : unit => str "0x00") sample_handler
              [ op_generateFinalProof [x01]; op_destroy;
                op_verifyProof sample_buffer false; op_instantiate ]
              instantiated_backend 8%nat)).
Proof.
  apply Forall_forall.
  apply (no_setup_once_instantiated nat nat unit nat (fun _ : unit => str "0x00")
           sample_handler
           [ op_generateFinalProof [x01]; op_destroy;
             op_verifyProof sample_buffer false; op_instantiate ]
           instantiated_backend 8%nat 7%nat).
  reflexivity.
Defined.

Lemma verify_malformed_proof_data_witness :
  run sample_handler
    (verifyFinalProof {| proof := sample_proof; publicInputs := [(1%N, str "ff")] |})
    sample_backend 0%nat
  = {| calls := []; final := sample_backend; world := 0%nat;
       ending := Completed (Throw SyntaxError) |}
  /\ run sample_handler
       (verifyIntermediateProof
          {| proof := sample_proof; publicInputs := [(1%N, str "ff")] |})
       sample_backend 0%nat
     = {| calls := []; final := sample_backend; world := 0%nat;
          ending := Completed (Throw SyntaxError) |}.
Proof.
  apply (verify_malformed_proof_data nat nat unit nat sample_handler
           {| proof := sample_proof; publicInputs := [(1%N, str "ff")] |}
           SyntaxError sample_backend 0%nat).
  vm_compute. reflexivity.
Defined.

Lemma verify_receives_the_generated_buffer_witness :
  exists pd,
    ending (run sample_handler (generateFinalProof [x01]) instantiated_backend 8%nat)
    = Completed (Ok pd)
    /\ calls (run sample_handler (verifyFinalProof pd) instantiated_backend 10%nat)
       = [ any_call (AcirInitVerificationKey 7%nat (Some 9%nat));
           any_call (AcirVerifyProof 7%nat (Some 9%nat) sample_buffer false) ].
Proof.
  destruct (verify_receives_the_generated_buffer nat nat unit nat sample_handler
              instantiated_backend 8%nat 9%nat 10%nat 7%nat [1; 2; 4]%N
              [x01] [x01] sample_buffer false)
    as (pd & Hend & _ & Hverify); try reflexivity.
  exists pd. split; [exact Hend|].
  apply (Hverify 10%nat 11%nat). reflexivity.
Defined.

(** * [generateProof] as a whole *)

Lemma In_prefix {A : Type} (x : A) (m : nat) (l : list A) :
  In x (firstn m l) -> In x l.
Proof.
  intros H. rewrite <- (firstn_skipn m l). apply in_or_app. left. exact H.
Qed.

Section GenerateProof.

Variables Api Composer Fr World : Type.
Variable h : Handler Api Composer Fr World.

#[local] Opaque splitProof.

(** Running one part of a method after another. *)
Lemma run_bind {A B : Type} (p : Prog Api Composer Fr A)
  (f : A -> Prog Api Composer Fr B) :
  forall (this : BarretenbergBackend Api Composer) (w : World),
    run h (bind Api Composer Fr p f) this w
    = match ending (run h p this w) with
      | Completed (Ok v) =>
          {| calls := calls (run h p this w)
                      ++ calls (run h (f v) (final (run h p this w))
                                  (world (run h p this w)));
             final := final (run h (f v) (final (run h p this w))
                               (world (run h p this w)));
             world := world (run h (f v) (final (run h p this w))
                               (world (run h p this w)));
             ending := ending (run h (f v) (final (run h p this w))
                                 (world (run h p this w))) |}
      | Completed (Throw e) =>
          {| calls := calls (run h p this w); final := final (run h p this w);
             world := world (run h p this w); ending := Completed (Throw e) |}
      | Completed OutOfFuel =>
          {| calls := calls (run h p this w); final := final (run h p this w);
             world := world (run h p this w); ending := Completed OutOfFuel |}
      | Rejected =>
          {| calls := calls (run h p this w); final := final (run h p this w);
             world := world (run h p this w); ending := Rejected |}
      end.
Proof.
  induction p as [o|R c k IH|k IH|this' k IH]; intros this w.
  - destruct o as [v|e|]; cbn; try reflexivity.
    destruct (run h (f v) this w); reflexivity.
  - cbn. destruct (h R c w) as [w' [v|]]; [|reflexivity].
    rewrite IH. cbn.
    destruct (ending (run h (k v) this w')) as [[v'|e|]|]; reflexivity.
  - cbn. apply IH.
  - cbn. apply IH.
Qed.

(** C4. When the native [acirCreateProof], called by [generateProof]
    once the backend is instantiated, resolves to a buffer of at least
    2144 bytes, [generateProof] makes no further call and ends with the
    split of that buffer: the proof is exactly its last 2144 bytes, and
    the public inputs are computed from the bytes before them alone, cut
    into consecutive chunks of 32 bytes; every value of the witness map
    is the hex string of one of these chunks, the witness of rank [k]
    getting chunk [k], and the call throws when the chunks are fewer than
    the witnesses. *)
Theorem generateProof_proof_is_tail (this : BarretenbergBackend Api Composer)
  (w w1 w2 : World) (a : Api)
  (compressedWitness witness proofWithPublicInputs : Uint8Array) (flag : bool) :
  let ready := run h instantiate this w in
  ending ready = Completed (Ok tt) ->
  api (final ready) = Some a ->
  h _ (Gunzip compressedWitness) (world ready) = (w1, Some witness) ->
  h _ (AcirCreateProof a (acirComposer (final ready))
         (acirUncompressedBytecode (final ready)) witness flag) w1
  = (w2, Some proofWithPublicInputs) ->
  (2144 <= length proofWithPublicInputs)%nat ->
  let splitIndex := (length proofWithPublicInputs - 2144)%nat in
  let region := firstn splitIndex proofWithPublicInputs in
  let tail := skipn splitIndex proofWithPublicInputs in
  let circuit_abi := abi (acirCircuit (final ready)) in
  let result := run h (generateProof compressedWitness flag) this w in
  calls result
  = calls ready
    ++ [ any_call (Gunzip compressedWitness);
         any_call (AcirCreateProof a (acirComposer (final ready))
                     (acirUncompressedBytecode (final ready)) witness flag) ]
  /\ final result = final ready
  /\ world result = w2
  /\ length tail = 2144%nat
  /\ region ++ tail = proofWithPublicInputs
  /\ ending result
     = Completed
         (let! ws := public_input_witnesses_of circuit_abi in
          let! inputs := fill_public_inputs ws 0 (chunks region) [] in
          Ok {| proof := tail; publicInputs := inputs |})%res
  /\ (forall ws : list N,
         public_input_witnesses_of circuit_abi = Ok ws ->
         ending result
         = Completed
             (if (length ws <=? chunk_count region)%nat
              then Ok {| proof := tail;
                         publicInputs :=
                           combine ws (map uint8ArrayToHex
                                         (firstn (length ws) (chunks region))) |}
              else Throw TypeError))
  /\ (forall pd : ProofData,
         ending result = Completed (Ok pd) ->
         proof pd = tail
         /\ forall key value,
             In (key, value) (publicInputs pd) ->
             exists k, (k < chunk_count region)%nat
                       /\ value = uint8ArrayToHex (chunk_at region k)).
Proof.
  intros ready Hready Ha Hgunzip Hproof Hlen splitIndex region tail circuit_abi result.
  destruct (splitProof_proof_is_tail circuit_abi proofWithPublicInputs Hlen)
    as (Htail & Happ & _ & Hsplit & _ & Hws).
  fold splitIndex region tail in Htail, Happ, Hsplit, Hws.
  assert (Hresult :
            calls result
            = calls ready
              ++ [ any_call (Gunzip compressedWitness);
                   any_call (AcirCreateProof a (acirComposer (final ready))
                               (acirUncompressedBytecode (final ready)) witness flag) ]
            /\ final result = final ready
            /\ world result = w2
            /\ ending result = Completed (splitProof circuit_abi proofWithPublicInputs)).
  { unfold result, generateProof. rewrite run_bind. fold ready. rewrite Hready.
    cbn [calls final world ending]. unfold circuit_abi.
    clear Hready Htail Happ Hsplit Hws. clearbody ready.
    destruct (final ready) as [a' c b circuit o].
    cbn [api acirComposer acirUncompressedBytecode acirCircuit] in *. subst a'.
    cbn. rewrite Hgunzip. cbn. rewrite Hproof. cbn.
    repeat split; reflexivity. }
  destruct Hresult as (Hcalls & Hfinal & Hworld & Hending).
  split; [exact Hcalls|]. split; [exact Hfinal|]. split; [exact Hworld|].
  split; [exact Htail|]. split; [exact Happ|].
  split; [rewrite Hending, Hsplit; reflexivity|].
  split; [intros ws Hwsok; rewrite Hending, (Hws ws Hwsok); reflexivity|].
  intros pd Hpd. rewrite Hending, Hsplit in Hpd.
  destruct (public_input_witnesses_of circuit_abi) as [ws| |] eqn:Hok;
    cbn [rbind] in Hpd; try discriminate Hpd.
  pose proof (Hws ws eq_refl) as Hcase. rewrite Hsplit in Hcase. cbn [rbind] in Hcase.
  rewrite Hcase in Hpd.
  destruct (length ws <=? chunk_count region)%nat; [|discriminate Hpd].
  assert (Heq : pd = {| proof := tail;
                        publicInputs :=
                          combine ws (map uint8ArrayToHex
                                        (firstn (length ws) (chunks region))) |})
    by congruence.
  subst pd. cbn [proof publicInputs]. split; [reflexivity|].
  intros key value Hin. apply in_combine_r in Hin. apply in_map_iff in Hin.
  destruct Hin as (c & <- & Hc). apply In_prefix in Hc.
  unfold chunks in Hc. apply in_map_iff in Hc. destruct Hc as (k & <- & Hk).
  apply in_seq in Hk. exists k. split; [lia | reflexivity].
Qed.

End GenerateProof.

Lemma generateProof_proof_is_tail_witness :
  calls (run sample_handler (generateProof [x01] false) sample_backend 0%nat)
  = calls (run sample_handler instantiate sample_backend 0%nat)
    ++ [ any_call (Gunzip [x01]);
         any_call (AcirCreateProof 7%nat (Some 9%nat) [x01; x02] [x01] false) ]
  /\ ending (run sample_handler (generateProof [x01] false) sample_backend 0%nat)
     = Completed
         (Ok {| proof := sample_proof;
                publicInputs :=
                  [ (1%N, uint8ArrayToHex sample_field);
                    (2%N, uint8ArrayToHex (repeat x00 31 ++ [x07]));
                    (4%N, uint8ArrayToHex (repeat xff 32)) ] |}).
Proof.
  destruct (generateProof_proof_is_tail nat nat unit nat sample_handler sample_backend
              0%nat 9%nat 10%nat 7%nat [x01] [x01] sample_buffer false)
    as (Hcalls & _ & _ & _ & _ & _ & Hws & _).
  - reflexivity.
  - reflexivity.
  - reflexivity.
  - reflexivity.
  - apply Nat.leb_le. vm_compute. reflexivity.
  - split; [exact Hcalls|].
    rewrite (Hws [1; 2; 4]%N) by reflexivity. vm_compute. reflexivity.
Defined.
